(** * Logic Circuit Playground: the boolean expression engine of [src/App.tsx]

    A shallow embedding of the token model, the validity checks of
    [safeEvaluate], the shunting-yard converter [toRPN], the postfix
    evaluator [evalRPN] and the truth-table enumerator, followed by the
    properties of the engine. *)

From Stdlib Require Import ZArith Lia.
From stdpp Require Import gmap strings list fin_maps.

Local Open Scope string_scope.
Local Open Scope list_scope.

#[local] Set Warnings "-clear-no-such-hyp".

(** ** Token model *)

(** [VARS = ["A","B","C","TRUE","FALSE"]] and [OPS = ["&&","||","!"]]:
    the payloads a [VarToken] and an [OpToken] may carry. *)
Inductive VarName := vA | vB | vC | vTRUE | vFALSE.
Inductive OpName := opAND | opOR | opNOT.

Definition VARS : list VarName := [vA; vB; vC; vTRUE; vFALSE].
Definition OPS : list OpName := [opAND; opOR; opNOT].

(** The string a payload stands for in the source. *)
Definition varKey (v : VarName) : string :=
  match v with
  | vA => "A" | vB => "B" | vC => "C" | vTRUE => "TRUE" | vFALSE => "FALSE"
  end.

Definition opSymbol (o : OpName) : string :=
  match o with opAND => "&&" | opOR => "||" | opNOT => "!" end.

#[global] Instance varKey_inj : Inj (=) (=) varKey.
Proof. intros v w Heq. by destruct v, w. Qed.

(** [type Token = VarToken | OpToken | ParenToken] *)
Inductive Token :=
| VAR (value : VarName)
| OP (value : OpName)
| LPAREN
| RPAREN.

#[global] Instance VarName_eq_dec : EqDecision VarName.
Proof. solve_decision. Defined.
#[global] Instance OpName_eq_dec : EqDecision OpName.
Proof. solve_decision. Defined.
#[global] Instance Token_eq_dec : EqDecision Token.
Proof. solve_decision. Defined.

(** The helpers take an optional token ([t?: Token]); [None] is
    [undefined]. *)
Definition isOperand (t : option Token) : bool :=
  match t with Some (VAR _) | Some RPAREN => true | _ => false end.
Definition isOperator (t : option Token) : bool :=
  match t with Some (OP _) => true | _ => false end.
Definition isPrefixUnary (t : option Token) : bool :=
  match t with Some (OP opNOT) => true | _ => false end.

(** ** Errors

    Every [throw new Error(msg)] of the engine, one constructor per
    distinct message. *)
Inductive Error :=
| MismatchedParentheses
| InvalidUnaryPlacement
| InvalidANDPlacement
| InvalidORPlacement
| UnknownOperator
| IncompleteExpression
| EmptyExpression
| MissingOperatorBetweenOperands
| MissingOperatorAfterParen
| BinaryNeedsOperands
| BinaryCannotFollow
| NotMustBeFollowed.

Definition message (e : Error) : string :=
  match e with
  | MismatchedParentheses => "Mismatched parentheses"
  | InvalidUnaryPlacement => "Invalid unary operator placement"
  | InvalidANDPlacement => "Invalid AND placement"
  | InvalidORPlacement => "Invalid OR placement"
  | UnknownOperator => "Unknown operator"
  | IncompleteExpression => "Incomplete expression"
  | EmptyExpression => "Empty expression"
  | MissingOperatorBetweenOperands => "Missing operator between operands"
  | MissingOperatorAfterParen => "Missing operator between ) and next token"
  | BinaryNeedsOperands => "Binary operator needs operands on both sides"
  | BinaryCannotFollow => "Binary operator cannot follow an operator or ("
  | NotMustBeFollowed => "! must be followed by an operand or ("
  end.

#[global] Instance Error_eq_dec : EqDecision Error.
Proof. solve_decision. Defined.

(** The two messages that report a missing operator. *)
Definition isMissingOperator (e : Error) : bool :=
  match e with
  | MissingOperatorBetweenOperands | MissingOperatorAfterParen => true
  | _ => false
  end.

(** A computation that may throw. *)
Definition Result (A : Type) : Type := Error + A.

Definition bind {A B} (r : Result A) (k : A -> Result B) : Result B :=
  match r with inl e => inl e | inr a => k a end.

Notation "'attempt' p ':=' r 'in' k" := (bind r (fun p => k))
  (at level 10, p pattern, r at level 100, k at level 200,
   format "'attempt'  p  ':='  r  'in' '//' k").

(** ** Converter: shunting-yard to RPN *)

Definition precedence (o : OpName) : Z :=
  match o with opNOT => 3 | opAND => 2 | opOR => 1 end.

Definition rightAssociative (o : OpName) : bool :=
  match o with opNOT => true | _ => false end.

(** The output of [toRPN] has type [(Token | string)[]]. *)
Inductive RPNItem :=
| Tok (t : Token)
| Str (s : string).

(** The test of the inner [while] of the [OP] case, for an operator [o2]
    on top of the stack. *)
Definition popsBefore (o1 o2 : OpName) : bool :=
  (rightAssociative o1 && (precedence o1 <? precedence o2)%Z)
  || (negb (rightAssociative o1) && (precedence o1 <=? precedence o2)%Z).

(** The stack is a list whose head is the top; the output grows at its
    end.  A parenthesis on top has no [value], so [o2] is [undefined] and
    the loop breaks; a variable is never pushed, and would break the loop
    as well since it has no precedence. *)
Fixpoint popOperators (o1 : OpName) (stack : list Token) (output : list RPNItem)
  : list Token * list RPNItem :=
  match stack with
  | OP o2 :: rest =>
      if popsBefore o1 o2 then popOperators o1 rest (output ++ [Tok (OP o2)])
      else (stack, output)
  | _ => (stack, output)
  end.

(** The [RPAREN] case: pop to the output until the [LPAREN] marker;
    [None] when [foundLeft] is still false once the stack is empty. *)
Fixpoint popToLeftParen (stack : list Token) (output : list RPNItem)
  : option (list Token * list RPNItem) :=
  match stack with
  | [] => None
  | LPAREN :: rest => Some (rest, output)
  | top :: rest => popToLeftParen rest (output ++ [Tok top])
  end.

(** One iteration of the [for] loop of [toRPN]. *)
Definition rpnStep (st : list Token * list RPNItem) (t : Token)
  : Result (list Token * list RPNItem) :=
  let '(stack, output) := st in
  match t with
  | VAR _ => inr (stack, output ++ [Tok t])
  | OP o1 =>
      let '(stack', output') := popOperators o1 stack output in
      inr (t :: stack', output')
  | LPAREN => inr (t :: stack, output)
  | RPAREN =>
      match popToLeftParen stack output with
      | Some st' => inr st'
      | None => inl MismatchedParentheses
      end
  end.

Fixpoint rpnScan (tokens : list Token) (st : list Token * list RPNItem)
  : Result (list Token * list RPNItem) :=
  match tokens with
  | [] => inr st
  | t :: rest => attempt st' := rpnStep st t in rpnScan rest st'
  end.

(** The final [while (stack.length)] loop. *)
Fixpoint drainStack (stack : list Token) (output : list RPNItem)
  : Result (list RPNItem) :=
  match stack with
  | [] => inr output
  | LPAREN :: _ => inl MismatchedParentheses
  | top :: rest => drainStack rest (output ++ [Tok top])
  end.

Definition toRPN (tokens : list Token) : Result (list RPNItem) :=
  attempt (stack, output) := rpnScan tokens ([], []) in
  drainStack stack output.

(** ** Evaluator *)

(** [(t as OpToken).value] of an item that is not a [VAR] token: the
    operator of an [OP] token, [undefined] for anything else. *)
Definition operatorOf (t : RPNItem) : option OpName :=
  match t with Tok (OP o) => Some o | _ => None end.

(** One iteration of the [for] loop of [evalRPN]; the head of [st] is the
    top of the value stack. *)
Definition evalStep (env : gmap string bool) (st : list bool) (t : RPNItem)
  : Result (list bool) :=
  match t with
  | Tok (VAR value) =>
      match value with
      | vTRUE => inr (true :: st)
      | vFALSE => inr (false :: st)
      | _ => inr (default false (env !! varKey value) :: st)
      end
  | _ =>
      match operatorOf t with
      | Some opNOT =>
          match st with
          | v :: st' => inr (negb v :: st')
          | [] => inl InvalidUnaryPlacement
          end
      | Some opAND =>
          match st with
          | b :: a :: st' => inr ((a && b) :: st')
          | _ => inl InvalidANDPlacement
          end
      | Some opOR =>
          match st with
          | b :: a :: st' => inr ((a || b) :: st')
          | _ => inl InvalidORPlacement
          end
      | None => inl UnknownOperator
      end
  end.

Fixpoint evalLoop (env : gmap string bool) (rpn : list RPNItem) (st : list bool)
  : Result (list bool) :=
  match rpn with
  | [] => inr st
  | t :: rest => attempt st' := evalStep env st t in evalLoop env rest st'
  end.

Definition evalRPN (rpn : list RPNItem) (env : gmap string bool) : Result bool :=
  attempt st := evalLoop env rpn [] in
  match st with
  | [v] => inr v
  | _ => inl IncompleteExpression
  end.

(** ** Validity checks and [safeEvaluate] *)

Definition isVar (t : Token) : bool :=
  match t with VAR _ => true | _ => false end.

Definition isRParen (t : Token) : bool :=
  match t with RPAREN => true | _ => false end.

(** [t.type === "OP" && t.value !== "!"] *)
Definition isBinaryOp (t : Token) : bool :=
  match t with OP opAND | OP opOR => true | _ => false end.

(** [next?.type === "VAR" || next?.type === "LPAREN"] *)
Definition startsOperand (next : option Token) : bool :=
  match next with Some (VAR _) | Some LPAREN => true | _ => false end.

(** [prev?.type === "LPAREN"] *)
Definition isLParen (prev : option Token) : bool :=
  match prev with Some LPAREN => true | _ => false end.

(** [next?.type === "OP" && next.value !== "!"] *)
Definition isBinaryNext (next : option Token) : bool :=
  match next with Some n => isBinaryOp n | None => false end.

(** [!prev]: a token is an object, hence truthy; only [undefined] is not. *)
Definition missing (t : option Token) : bool :=
  match t with None => true | Some _ => false end.

(** The body of the [for] loop of [safeEvaluate] for the token [t] with
    its neighbours [prev] and [next] ([None] when out of range). *)
Definition checkToken (prev : option Token) (t : Token) (next : option Token)
  : Result unit :=
  if isVar t && startsOperand next then inl MissingOperatorBetweenOperands
  else if isRParen t && startsOperand next then inl MissingOperatorAfterParen
  else if isBinaryOp t && (missing prev || missing next)
  then inl BinaryNeedsOperands
  else if isBinaryOp t && (isOperator prev || isLParen prev)
  then inl BinaryCannotFollow
  else if isPrefixUnary (Some t) && isBinaryNext next
  then inl NotMustBeFollowed
  else inr tt.

(** [tokens[i - 1]]: index [-1] of an array is [undefined]. *)
Definition tokenBefore (tokens : list Token) (i : nat) : option Token :=
  match i with 0 => None | S j => tokens !! j end.

Definition checkAt (tokens : list Token) (i : nat) : Result unit :=
  match tokens !! i with
  | Some t => checkToken (tokenBefore tokens i) t (tokens !! S i)
  | None => inr tt
  end.

(** The loop over [i = 0 .. tokens.length - 1]; the first failing check
    throws. *)
Fixpoint checkIndices (tokens : list Token) (indices : list nat) : Result unit :=
  match indices with
  | [] => inr tt
  | i :: rest => attempt _ := checkAt tokens i in checkIndices tokens rest
  end.

Definition validityChecks (tokens : list Token) : Result unit :=
  if bool_decide (length tokens = 0) then inl EmptyExpression
  else checkIndices tokens (seq 0 (length tokens)).

Definition safeEvaluate (tokens : list Token) (env : gmap string bool)
  : Result bool :=
  attempt _ := validityChecks tokens in
  attempt rpn := toRPN tokens in
  evalRPN rpn env.

(** ** Truth table *)

(** The variables actually used.  A [Set] keeps its elements in insertion
    order, each once. *)
Definition setAdd (s : list string) (x : string) : list string :=
  if bool_decide (x ∈ s) then s else s ++ [x].

(** The callback of [tokens.forEach]. *)
Definition addUsed (s : list string) (t : Token) : list string :=
  match t with
  | VAR value =>
      if bool_decide (varKey value ∈ ["A"; "B"; "C"])
      then setAdd s (varKey value) else s
  | _ => s
  end.

Definition collectVars (tokens : list Token) : list string :=
  foldl addUsed [] tokens.

(** [Array.prototype.sort()] without a comparison function orders strings
    by their code units. *)
Fixpoint insertSorted (x : string) (l : list string) : list string :=
  match l with
  | [] => [x]
  | y :: rest => if String.leb x y then x :: l else y :: insertSorted x rest
  end.

Definition sort (l : list string) : list string :=
  foldr insertSorted [] l.

Definition usedVars (tokens : list Token) : list string :=
  sort (collectVars tokens).

(** 32-bit integer operators of JavaScript, with their wrap-around. *)
Definition toInt32 (z : Z) : Z := ((z + 2 ^ 31) mod 2 ^ 32 - 2 ^ 31)%Z.
Definition shl (a n : Z) : Z := toInt32 (Z.shiftl (toInt32 a) (n mod 32)).
Definition sar (a n : Z) : Z := Z.shiftr (toInt32 a) (n mod 32).
Definition band (a b : Z) : Z := Z.land (toInt32 a) (toInt32 b).

(** [Boolean(x)] of a number. *)
Definition Boolean (x : Z) : bool := negb (x =? 0)%Z.

(** [usedVars.forEach((v, i) => { assignment[v] = ... })], from index [i]
    on. *)
Fixpoint assignBits (n mask : Z) (i : nat) (vars : list string)
    (assignment : gmap string bool) : gmap string bool :=
  match vars with
  | [] => assignment
  | v :: rest =>
      assignBits n mask (S i) rest
        (<[v := Boolean (band (sar mask (n - 1 - Z.of_nat i)) 1)]> assignment)
  end.

Definition initialAssignment : gmap string bool :=
  <["A" := false]> (<["B" := false]> (<["C" := false]> ∅)).

Definition assignmentOf (vars : list string) (mask : Z) : gmap string bool :=
  assignBits (Z.of_nat (length vars)) mask 0 vars initialAssignment.

(** A row [{ ...assignment, RESULT }]: the assignment's entries and a
    result that is a boolean or the string of the [catch] branch. *)
Record Row := mkRow {
  assignment : gmap string bool;
  RESULT : bool + string
}.

Definition errorSentinel : string := "—".

(** The [RESULT] of the [try] / [catch] around [safeEvaluate]. *)
Definition resultCell (r : Result bool) : bool + string :=
  match r with
  | inr val => inl val
  | inl _ => inr errorSentinel
  end.

(** One iteration of the loop over [mask]. *)
Definition rowFor (tokens : list Token) (vars : list string) (mask : Z) : Row :=
  let assignment := assignmentOf vars mask in
  mkRow assignment (resultCell (safeEvaluate tokens assignment)).

Definition truthTable (showTable : bool) (tokens : list Token) : list Row :=
  let usedVars := usedVars tokens in
  if negb showTable || bool_decide (length usedVars = 0) then []
  else
    let n := Z.of_nat (length usedVars) in
    let total := shl 1 n in
    rowFor tokens usedVars <$> seqZ 0 total.

(** The cells of a row as the table displays them: [row[v]] for each
    used variable. *)
Definition rowCells (vars : list string) (row : Row) : list (option bool) :=
  (fun v => assignment row !! v) <$> vars.

(** ** The state of [App] and its updates *)

(** [Array.prototype.splice(start, deleteCount, ...items)] for a start
    index that is not negative: the removed elements and the array
    afterwards.  A start past the end is the end. *)
Definition splice {A} (start deleteCount : nat) (items arr : list A)
  : list A * list A :=
  let start := start `min` length arr in
  (take deleteCount (drop start arr),
   take start arr ++ items ++ drop (start + deleteCount) arr).

(** [addToken]: [setTokens((prev) => [...prev, t])]. *)
Definition addToken (t : Token) (prev : list Token) : list Token :=
  prev ++ [t].

(** The update of [handleDropAdd] for a parsed token [t]: at the index
    stored in the drag data when there is one, at the end otherwise. *)
Definition handleDropAdd (insertAt : option nat) (t : Token)
    (prev : list Token) : list Token :=
  match insertAt with
  | Some i => snd (splice i 0 [t] prev)
  | None => addToken t prev
  end.

(** The update of [handleReorderDrop].  The element taken out by the
    first [splice] is [undefined] when nothing was removed, and is put
    back as it is: the array may then hold an [undefined], here [None]. *)
Definition handleReorderDrop (from to : nat) (prev : list Token)
  : list (option Token) :=
  let '(removed, next) := splice from 1 [] (Some <$> prev) in
  let moved := default None (head removed) in
  snd (splice to 0 [moved] next).

(** [Array.prototype.filter] with a callback that reads the index. *)
Fixpoint filterIndexed {A} (keep : A -> nat -> bool) (j : nat) (arr : list A)
  : list A :=
  match arr with
  | [] => []
  | x :: rest =>
      if keep x j then x :: filterIndexed keep (S j) rest
      else filterIndexed keep (S j) rest
  end.

(** [onRemove] of the chip at index [i]:
    [prev.filter((_, j) => j !== i)]. *)
Definition onRemove (i : nat) (prev : list Token) : list Token :=
  filterIndexed (fun _ j => negb (Nat.eqb j i)) 0 prev.

(** The input buttons: [setEnv((e) => ({ ...e, [k]: !e[k] }))]; the
    negation of a missing entry is [true]. *)
Definition toggleInput (k : string) (e : gmap string bool)
  : gmap string bool :=
  <[k := negb (default false (e !! k))]> e.

(** The memoised [result]: [{ ok: true, val }] or
    [{ ok: false, error: e.message }]. *)
Inductive EvalResult :=
| Ok (val : bool)
| Failed (error : string).

Definition result (tokens : list Token) (env : gmap string bool)
  : EvalResult :=
  match safeEvaluate tokens env with
  | inr val => Ok val
  | inl e => Failed (message e)
  end.

(** The label of a [TokenChip]. *)
Definition label (token : Token) : string :=
  match token with
  | VAR value => varKey value
  | OP value => opSymbol value
  | LPAREN => "("
  | RPAREN => ")"
  end.

(** ** Notions used to state the properties *)

(** The value an operand token pushes under [env]. *)
Definition operandValue (env : gmap string bool) (v : VarName) : bool :=
  match v with
  | vTRUE => true
  | vFALSE => false
  | _ => default false (env !! varKey v)
  end.

(** Parenthesis balance of a token sequence read from left to right with
    [depth] groups open: no [)] without an open group, none left open. *)
Fixpoint balancedFrom (depth : nat) (tokens : list Token) : bool :=
  match tokens with
  | [] => bool_decide (depth = 0)
  | LPAREN :: rest => balancedFrom (S depth) rest
  | RPAREN :: rest =>
      match depth with
      | 0 => false
      | S depth' => balancedFrom depth' rest
      end
  | _ :: rest => balancedFrom depth rest
  end.

Definition balanced (tokens : list Token) : bool := balancedFrom 0 tokens.

(** The number of [LPAREN] markers on the converter's stack. *)
Definition markers (stack : list Token) : nat :=
  length (filter (fun t => t = LPAREN) stack).

(** Position [i] ends an operand (a variable or [)]) and position [i + 1]
    starts one (a variable or [(]). *)
Definition adjacentOperandsAt (tokens : list Token) (i : nat) : bool :=
  match tokens !! i, tokens !! S i with
  | Some (VAR _ | RPAREN), Some (VAR _ | LPAREN) => true
  | _, _ => false
  end.

(** The same with [(] also accepted in the first position. *)
Definition adjacentOrOpenAt (tokens : list Token) (i : nat) : bool :=
  match tokens !! i, tokens !! S i with
  | Some (VAR _ | LPAREN | RPAREN), Some (VAR _ | LPAREN) => true
  | _, _ => false
  end.

(** Position [j] holds a misplaced operator: a binary operator with no
    token before it or none after it, or right after an operator or [(];
    or a [!] right before a binary operator. *)
Definition operatorFaultAt (tokens : list Token) (j : nat) : bool :=
  match tokens !! j with
  | Some (OP opNOT) =>
      match tokens !! S j with
      | Some (OP (opAND | opOR)) => true
      | _ => false
      end
  | Some (OP (opAND | opOR)) =>
      match j with
      | 0 => true
      | S p =>
          match tokens !! p, tokens !! S j with
          | Some (VAR _ | RPAREN), Some _ => false
          | _, _ => true
          end
      end
  | _ => false
  end.

(** The free variables among [A], [B], [C] that occur in a token
    sequence, in alphabetical order. *)
Definition freeVars (tokens : list Token) : list VarName :=
  filter (fun v => VAR v ∈ tokens) [vA; vB; vC].

(** Every entry of the converter's stack and output is a token of [T]. *)
Definition sourced (T : list Token) (st : list Token * list RPNItem) : Prop :=
  Forall (fun t => t ∈ T) (fst st)
  /\ Forall (fun x => exists t, x = Tok t /\ t ∈ T) (snd st).

(** The outcome of an evaluation, up to the values computed: the error,
    or the height of the stack. *)
Definition shape (r : Result (list bool)) : Error + nat :=
  match r with inl e => inl e | inr st => inr (length st) end.

(** *** Expression trees

    The expressions the token language is meant to write down, their
    value, their postfix form, and their rendering as a token sequence
    with the parentheses that precedence and left associativity require
    ([EParen] keeps a pair the user wrote without need). *)
Inductive Expr :=
| EVar (v : VarName)
| ENot (e : Expr)
| EAnd (l r : Expr)
| EOr (l r : Expr)
| EParen (e : Expr).

Fixpoint denote (env : gmap string bool) (e : Expr) : bool :=
  match e with
  | EVar v => operandValue env v
  | ENot e => negb (denote env e)
  | EAnd l r => denote env l && denote env r
  | EOr l r => denote env l || denote env r
  | EParen e => denote env e
  end.

Fixpoint postfix (e : Expr) : list RPNItem :=
  match e with
  | EVar v => [Tok (VAR v)]
  | ENot e => postfix e ++ [Tok (OP opNOT)]
  | EAnd l r => postfix l ++ postfix r ++ [Tok (OP opAND)]
  | EOr l r => postfix l ++ postfix r ++ [Tok (OP opOR)]
  | EParen e => postfix e
  end.

(** How tightly the top of a tree binds: the precedence of its operator,
    atoms above all operators. *)
Definition level (e : Expr) : Z :=
  match e with
  | EOr _ _ => precedence opOR
  | EAnd _ _ => precedence opAND
  | ENot _ => precedence opNOT
  | EVar _ | EParen _ => 4
  end.

Definition parenthesized (body : list Token) : list Token :=
  LPAREN :: body ++ [RPAREN].

(** [render ctx e]: the tokens of [e] where an operand binding at least
    as tightly as [ctx] is expected.  A binary operator takes a left
    operand of its own level and a right operand of the next. *)
Fixpoint render (ctx : Z) (e : Expr) : list Token :=
  let body :=
    match e with
    | EVar v => [VAR v]
    | ENot e => OP opNOT :: render 3 e
    | EAnd l r => render 2 l ++ OP opAND :: render 3 r
    | EOr l r => render 1 l ++ OP opOR :: render 2 r
    | EParen e => parenthesized (render 1 e)
    end in
  if (level e <? ctx)%Z then parenthesized body else body.

(** The operators of level [ctx] and above leave the top of the stack
    where it is. *)
Definition guarded (ctx : Z) (stack : list Token) : Prop :=
  match stack with
  | OP o2 :: _ =>
      forall o1, (ctx <= precedence o1)%Z -> popsBefore o1 o2 = false
  | _ => True
  end.

(** The validity checks of a stretch [l] of tokens that has [prev]
    before it and [next] after it. *)
Fixpoint checksIn (prev : option Token) (l : list Token) (next : option Token)
  : Result unit :=
  match l with
  | [] => inr tt
  | t :: rest =>
      attempt _ := checkToken prev t (from_option Some next (head rest)) in
      checksIn (Some t) rest next
  end.

(** The operands and the binary operators of a sequence. *)
Definition operands (tokens : list Token) : list Token :=
  filter (fun t => isVar t = true) tokens.

Definition binaryOperators (tokens : list Token) : list Token :=
  filter (fun t => isBinaryOp t = true) tokens.

(** An item of a postfix sequence that is an operand or an operator. *)
Definition isPostfixItem (x : RPNItem) : Prop :=
  match x with
  | Tok (VAR _) | Tok (OP _) => True
  | _ => False
  end.

(** The tokens of a sequence other than the parentheses. *)
Definition unparenthesized (tokens : list Token) : list Token :=
  filter (fun t => t <> LPAREN /\ t <> RPAREN) tokens.


Definition isVarItem (x : RPNItem) : bool :=
  match x with Tok (VAR _) => true | _ => false end.

(** What the converter holds after part of a scan: its output followed
    by the operators waiting on its stack. *)
Definition held (st : list Token * list RPNItem) : list RPNItem :=
  snd st ++ (Tok <$> unparenthesized (fst st)).


(** The stack of the converter holds operators and [(] markers only. *)
Definition isStackEntry (t : Token) : Prop :=
  match t with OP _ | LPAREN => True | _ => False end.

(** The state of the converter once the tokens [consumed] are scanned:
    it holds each of their operands and operators once, the operands all
    in the output and in their order. *)
Definition converting (consumed : list Token)
    (st : list Token * list RPNItem) : Prop :=
  Forall isStackEntry (fst st)
  /\ held st ≡ₚ Tok <$> unparenthesized consumed
  /\ filter (fun x => isVarItem x = true) (snd st) = Tok <$> operands consumed.


(** The errors by the stage that throws them. *)
Definition isValidityError (e : Error) : bool :=
  match e with
  | EmptyExpression | MissingOperatorBetweenOperands
  | MissingOperatorAfterParen | BinaryNeedsOperands | BinaryCannotFollow
  | NotMustBeFollowed => true
  | _ => false
  end.

Definition isEvaluationError (e : Error) : bool :=
  match e with
  | InvalidUnaryPlacement | InvalidANDPlacement | InvalidORPlacement
  | IncompleteExpression => true
  | _ => false
  end.

(** The operands and binary operators of a postfix sequence. *)
Definition isBinaryItem (x : RPNItem) : bool :=
  match x with Tok t => isBinaryOp t | Str _ => false end.


(** Tokens an operand may begin with, and tokens it may end with. *)
Definition opens (t : Token) : bool :=
  match t with VAR _ | OP opNOT | LPAREN => true | _ => false end.

Definition closes (t : Token) : bool :=
  match t with VAR _ | RPAREN => true | _ => false end.

(** The scan of [body] leaves on the stack, above what was there, only
    operators of level [ctx] and above, and the output extended to the
    postfix [pf] once these are popped. *)
Definition scansTo (ctx : Z) (body : list Token) (pf : list RPNItem) : Prop :=
  forall stack output, guarded ctx stack ->
    exists pending output',
      rpnScan body (stack, output) = inr ((OP <$> pending) ++ stack, output')
      /\ output' ++ (Tok ∘ OP <$> pending) = output ++ pf
      /\ Forall (fun o => (ctx <= precedence o)%Z) pending.


(** A stretch of tokens that passes the checks wherever the token after
    it does not start an operand. *)
Definition validIn (body : list Token) : Prop :=
  forall prev next, startsOperand next = false ->
    checksIn prev body next = inr tt.


(** The three errors about the placement of an operator. *)
Definition isOperatorError (e : Error) : bool :=
  match e with
  | BinaryNeedsOperands | BinaryCannotFollow | NotMustBeFollowed => true
  | _ => false
  end.

(** * Properties *)

(** ** The pipeline on sample expressions *)

Example evaluate_empty : safeEvaluate [] ∅ = inl EmptyExpression.
Proof. reflexivity. Qed.

Example evaluate_variable : safeEvaluate [VAR vA] {["A" := true]} = inr true.
Proof. reflexivity. Qed.

Example evaluate_and :
  safeEvaluate [VAR vA; OP opAND; VAR vB] (<["A" := true]> {["B" := false]})
  = inr false.
Proof. reflexivity. Qed.

Example evaluate_not :
  safeEvaluate [OP opNOT; VAR vA] {["A" := false]} = inr true.
Proof. reflexivity. Qed.

Example evaluate_group :
  safeEvaluate [LPAREN; VAR vA; OP opOR; VAR vB; RPAREN; OP opAND; VAR vC]
    (<["A" := false]> (<["B" := true]> {["C" := true]}))
  = inr true.
Proof. vm_compute. reflexivity. Qed.

Example evaluate_two_operands :
  safeEvaluate [VAR vA; VAR vB] ∅ = inl MissingOperatorBetweenOperands.
Proof. reflexivity. Qed.

Example evaluate_leading_and :
  safeEvaluate [OP opAND; VAR vA] ∅ = inl BinaryNeedsOperands.
Proof. reflexivity. Qed.

Example table_two_variables :
  (fun row => (rowCells ["A"; "B"] row, RESULT row))
    <$> truthTable true [VAR vA; OP opAND; VAR vB]
  = [([Some false; Some false], inl false);
     ([Some false; Some true], inl false);
     ([Some true; Some false], inl false);
     ([Some true; Some true], inl true)].
Proof. vm_compute. reflexivity. Qed.

Example table_no_variables : truthTable true [VAR vTRUE] = [].
Proof. reflexivity. Qed.

(** ** The evaluator *)

Section Evaluator.
Variable env : gmap string bool.

Lemma evalStep_var v st :
  evalStep env st (Tok (VAR v)) = inr (operandValue env v :: st).
Proof. by destruct v. Qed.

Lemma evalLoop_app pre post st :
  evalLoop env (pre ++ post) st =
  attempt st' := evalLoop env pre st in evalLoop env post st'.
Proof.
  revert st; induction pre as [|t pre IH]; intros st; simpl; [done|].
  destruct (evalStep env st t) as [e|st']; simpl; [done|apply IH].
Qed.

Lemma evalLoop_snoc pre t st st' :
  evalLoop env pre st = inr st' ->
  evalLoop env (pre ++ [t]) st = evalStep env st' t.
Proof.
  intros H. rewrite evalLoop_app, H. simpl.
  by destruct (evalStep env st' t).
Qed.

(** A step that throws ends the evaluation with that error. *)
Lemma evalRPN_step_fails pre t post st e :
  evalLoop env pre [] = inr st ->
  evalStep env st t = inl e ->
  evalRPN (pre ++ t :: post) env = inl e.
Proof.
  intros Hpre Hstep. unfold evalRPN.
  rewrite evalLoop_app, Hpre. simpl. by rewrite Hstep.
Qed.

Lemma evalRPN_inr rpn v :
  evalRPN rpn env = inr v <-> evalLoop env rpn [] = inr [v].
Proof.
  unfold evalRPN. destruct (evalLoop env rpn []) as [e|[|w [|w' st]]]; simpl;
    split; intros H; by simplify_eq.
Qed.

End Evaluator.

(** C4, as the claim has it, does not hold: an operator that finds too few
    values throws its own placement error, which is not the
    "Incomplete expression" of the final check. *)
Lemma evalRPN_underflow_not_incomplete :
  evalRPN [Tok (OP opNOT)] ∅ = inl InvalidUnaryPlacement
  /\ evalRPN [Tok (OP opAND)] ∅ = inl InvalidANDPlacement
  /\ evalRPN [Tok (VAR vA); Tok (OP opOR)] ∅ = inl InvalidORPlacement
  /\ evalRPN [Tok (OP opNOT)] ∅ <> inl IncompleteExpression
  /\ message InvalidUnaryPlacement <> message IncompleteExpression.
Proof. repeat split; done. Qed.

(** C4 (amended): while a postfix sequence is evaluated, [!] needs one
    value on the stack and [&&], [||] need two; with fewer the evaluation
    fails with the operator's own placement error (InvalidUnaryPlacement,
    InvalidANDPlacement, InvalidORPlacement), with enough the operator
    replaces its operands by its result.  Once the whole sequence is
    consumed the value is returned exactly when one value remains; zero or
    more than one remaining is IncompleteExpression. *)
Theorem evalRPN_stack_discipline env pre st :
  evalLoop env pre [] = inr st ->
  (length st < 1 -> forall post,
     evalRPN (pre ++ Tok (OP opNOT) :: post) env = inl InvalidUnaryPlacement)
  /\ (length st < 2 -> forall post,
     evalRPN (pre ++ Tok (OP opAND) :: post) env = inl InvalidANDPlacement
     /\ evalRPN (pre ++ Tok (OP opOR) :: post) env = inl InvalidORPlacement)
  /\ (1 <= length st -> exists v st', st = v :: st'
     /\ evalLoop env (pre ++ [Tok (OP opNOT)]) [] = inr (negb v :: st'))
  /\ (2 <= length st -> exists b a st', st = b :: a :: st'
     /\ evalLoop env (pre ++ [Tok (OP opAND)]) [] = inr ((a && b) :: st')
     /\ evalLoop env (pre ++ [Tok (OP opOR)]) [] = inr ((a || b) :: st'))
  /\ (length st = 1 -> exists v, st = [v] /\ evalRPN pre env = inr v)
  /\ (length st <> 1 -> evalRPN pre env = inl IncompleteExpression).
Proof.
  intros Hpre. repeat split.
  - intros Hlen post. apply (evalRPN_step_fails env pre _ post st); [done|].
    destruct st; simpl in *; [done|lia].
  - apply (evalRPN_step_fails env pre _ post st); [done|].
    destruct st as [|b [|a st]]; simpl in *; try done; lia.
  - apply (evalRPN_step_fails env pre _ post st); [done|].
    destruct st as [|b [|a st]]; simpl in *; try done; lia.
  - intros Hlen. destruct st as [|v st']; simpl in Hlen; [lia|].
    exists v, st'. split; [done|]. by rewrite (evalLoop_snoc env pre _ [] (v :: st')).
  - intros Hlen. destruct st as [|b [|a st']]; simpl in Hlen; try lia.
    exists b, a, st'.
    by rewrite !(evalLoop_snoc env pre _ [] (b :: a :: st')).
  - intros Hlen. destruct st as [|v [|w st']]; simpl in Hlen; try lia.
    exists v. split; [done|]. by apply evalRPN_inr.
  - intros Hlen. unfold evalRPN. rewrite Hpre. simpl.
    by destruct st as [|v [|w st']].
Qed.

Lemma evalRPN_stack_discipline_witness :
  (length [true] < 1 -> forall post,
     evalRPN ([Tok (VAR vTRUE)] ++ Tok (OP opNOT) :: post) ∅
     = inl InvalidUnaryPlacement)
  /\ (length [true] < 2 -> forall post,
     evalRPN ([Tok (VAR vTRUE)] ++ Tok (OP opAND) :: post) ∅
     = inl InvalidANDPlacement
     /\ evalRPN ([Tok (VAR vTRUE)] ++ Tok (OP opOR) :: post) ∅
        = inl InvalidORPlacement)
  /\ (1 <= length [true] -> exists v st', [true] = v :: st'
     /\ evalLoop ∅ ([Tok (VAR vTRUE)] ++ [Tok (OP opNOT)]) []
        = inr (negb v :: st'))
  /\ (2 <= length [true] -> exists b a st', [true] = b :: a :: st'
     /\ evalLoop ∅ ([Tok (VAR vTRUE)] ++ [Tok (OP opAND)]) []
        = inr ((a && b) :: st')
     /\ evalLoop ∅ ([Tok (VAR vTRUE)] ++ [Tok (OP opOR)]) []
        = inr ((a || b) :: st'))
  /\ (length [true] = 1 -> exists v, [true] = [v]
     /\ evalRPN [Tok (VAR vTRUE)] ∅ = inr v)
  /\ (length [true] <> 1 ->
     evalRPN [Tok (VAR vTRUE)] ∅ = inl IncompleteExpression).
Proof. apply (evalRPN_stack_discipline ∅ [Tok (VAR vTRUE)] [true]). reflexivity. Defined.

(** Evaluation only reads the environment through [operandValue]. *)
Lemma evalStep_ext env1 env2 st t :
  (forall v, operandValue env1 v = operandValue env2 v) ->
  evalStep env1 st t = evalStep env2 st t.
Proof.
  intros Hext. destruct t as [[v| | |]|]; try done.
  by rewrite !evalStep_var, Hext.
Qed.

Lemma evalLoop_ext env1 env2 rpn st :
  (forall v, operandValue env1 v = operandValue env2 v) ->
  evalLoop env1 rpn st = evalLoop env2 rpn st.
Proof.
  intros Hext. revert st. induction rpn as [|t rpn IH]; intros st; simpl; [done|].
  rewrite (evalStep_ext env1 env2) by done.
  destruct (evalStep env2 st t); simpl; [done|apply IH].
Qed.

Lemma evalRPN_ext env1 env2 rpn :
  (forall v, operandValue env1 v = operandValue env2 v) ->
  evalRPN rpn env1 = evalRPN rpn env2.
Proof. intros Hext. unfold evalRPN. by rewrite (evalLoop_ext env1 env2). Qed.

Lemma operandValue_rebind_TRUE env b v :
  operandValue (<["TRUE" := b]> env) v = operandValue env v.
Proof. destruct v; simpl; try done; by rewrite lookup_insert_ne. Qed.

Lemma operandValue_rebind_FALSE env b v :
  operandValue (<["FALSE" := b]> env) v = operandValue env v.
Proof. destruct v; simpl; try done; by rewrite lookup_insert_ne. Qed.

Lemma operandValue_absent env k v :
  env !! k = None ->
  operandValue (<[k := false]> env) v = operandValue env v.
Proof.
  intros Hk. destruct v; simpl; try done;
    match goal with
    | |- context [<[k := false]> env !! ?key] =>
        destruct (decide (k = key)) as [->|Hne];
        [by rewrite lookup_insert_eq, Hk | by rewrite lookup_insert_ne]
    end.
Qed.

(** C6: a variable token [A], [B] or [C] whose name is absent from the
    environment evaluates to false, and more generally an absent name
    behaves as one bound to false; [TRUE] and [FALSE] push the constants
    true and false whatever the environment holds, so rebinding [TRUE]
    or [FALSE] in the environment changes no result. *)
Theorem evalRPN_operands (env : gmap string bool) :
  (forall v st, v ∈ [vA; vB; vC] -> env !! varKey v = None ->
     evalStep env st (Tok (VAR v)) = inr (false :: st)
     /\ evalRPN [Tok (VAR v)] env = inr false)
  /\ (forall k rpn, env !! k = None ->
     evalRPN rpn (<[k := false]> env) = evalRPN rpn env)
  /\ (forall st, evalStep env st (Tok (VAR vTRUE)) = inr (true :: st)
     /\ evalStep env st (Tok (VAR vFALSE)) = inr (false :: st))
  /\ evalRPN [Tok (VAR vTRUE)] env = inr true
  /\ evalRPN [Tok (VAR vFALSE)] env = inr false
  /\ (forall rpn b,
     evalRPN rpn (<["TRUE" := b]> env) = evalRPN rpn env
     /\ evalRPN rpn (<["FALSE" := b]> env) = evalRPN rpn env).
Proof.
  split; [|repeat split; try done].
  - intros v st Hv Habs. apply list_elem_of_In in Hv. simpl in Hv.
    unfold evalRPN.
    destruct Hv as [<-|[<-|[<-|[]]]]; simpl in *; by rewrite Habs.
  - intros k rpn Hk. apply evalRPN_ext. intros v. by apply operandValue_absent.
  - apply evalRPN_ext. intros v. apply operandValue_rebind_TRUE.
  - apply evalRPN_ext. intros v. apply operandValue_rebind_FALSE.
Qed.

Lemma evalRPN_operands_witness :
  (forall v st, v ∈ [vA; vB; vC] -> (∅ : gmap string bool) !! varKey v = None ->
     evalStep ∅ st (Tok (VAR v)) = inr (false :: st)
     /\ evalRPN [Tok (VAR v)] ∅ = inr false)
  /\ (forall k rpn, (∅ : gmap string bool) !! k = None ->
     evalRPN rpn (<[k := false]> ∅) = evalRPN rpn ∅)
  /\ (forall st, evalStep ∅ st (Tok (VAR vTRUE)) = inr (true :: st)
     /\ evalStep ∅ st (Tok (VAR vFALSE)) = inr (false :: st))
  /\ evalRPN [Tok (VAR vTRUE)] ∅ = inr true
  /\ evalRPN [Tok (VAR vFALSE)] ∅ = inr false
  /\ (forall rpn b,
     evalRPN rpn (<["TRUE" := b]> ∅) = evalRPN rpn ∅
     /\ evalRPN rpn (<["FALSE" := b]> ∅) = evalRPN rpn ∅).
Proof. apply (evalRPN_operands ∅). Defined.

(** ** Whole-pipeline properties on fixed expressions *)

(** C3: [A || B && C] evaluates like [A || (B && C)] under every
    environment: both convert to the postfix [A B C && ||], whose value
    is [a || (b && c)]. *)
Theorem and_binds_tighter_than_or (env : gmap string bool) :
  safeEvaluate [VAR vA; OP opOR; VAR vB; OP opAND; VAR vC] env
  = safeEvaluate
      [VAR vA; OP opOR; LPAREN; VAR vB; OP opAND; VAR vC; RPAREN] env
  /\ toRPN [VAR vA; OP opOR; VAR vB; OP opAND; VAR vC]
     = toRPN [VAR vA; OP opOR; LPAREN; VAR vB; OP opAND; VAR vC; RPAREN]
  /\ safeEvaluate [VAR vA; OP opOR; VAR vB; OP opAND; VAR vC] env
     = inr (operandValue env vA
            || (operandValue env vB && operandValue env vC)).
Proof. repeat split; reflexivity. Qed.

(** C8: [!!A] under an environment binding [A] to [x] evaluates to [x],
    for both booleans: [!] being right-associative, the second [!] does
    not pop the first, and the postfix form is [A ! !]. *)
Theorem double_negation (env : gmap string bool) (x : bool) :
  safeEvaluate [OP opNOT; OP opNOT; VAR vA] (<["A" := x]> env) = inr x
  /\ popsBefore opNOT opNOT = false
  /\ toRPN [OP opNOT; OP opNOT; VAR vA]
     = inr [Tok (VAR vA); Tok (OP opNOT); Tok (OP opNOT)].
Proof.
  repeat split; try reflexivity.
  change (inr (negb (negb (default false (<["A" := x]> env !! "A"))))
          = (inr x : Result bool)).
  rewrite lookup_insert_eq. simpl. by rewrite negb_involutive.
Qed.

(** C10: the empty group [( )] passes the validity checks and converts
    to the empty postfix sequence; the pipeline fails only in the
    evaluator, with IncompleteExpression, under every environment. *)
Theorem empty_group_incomplete (env : gmap string bool) :
  validityChecks [LPAREN; RPAREN] = inr tt
  /\ toRPN [LPAREN; RPAREN] = inr []
  /\ evalRPN [] env = inl IncompleteExpression
  /\ safeEvaluate [LPAREN; RPAREN] env = inl IncompleteExpression
  /\ message IncompleteExpression = "Incomplete expression".
Proof. repeat split; reflexivity. Qed.

(** ** The converter *)

Lemma rpnScan_app pre post st :
  rpnScan (pre ++ post) st =
  attempt st' := rpnScan pre st in rpnScan post st'.
Proof.
  revert st; induction pre as [|t pre IH]; intros st; simpl; [done|].
  destruct (rpnStep st t) as [e|st']; simpl; [done|apply IH].
Qed.

Lemma popToLeftParen_None stack output :
  popToLeftParen stack output = None <-> LPAREN ∉ stack.
Proof.
  revert output. induction stack as [|top stack IH]; intros output; simpl.
  - split; [intros _; apply not_elem_of_nil|done].
  - rewrite not_elem_of_cons.
    destruct top; try (rewrite IH; naive_solver). naive_solver.
Qed.

Lemma popToLeftParen_markers stack output stack' output' :
  popToLeftParen stack output = Some (stack', output') ->
  markers stack = S (markers stack').
Proof.
  unfold markers. revert output.
  induction stack as [|top stack IH]; intros output; simpl; [done|].
  destruct top; try (rewrite filter_cons_False by done; apply IH).
  intros [= -> ->]. by rewrite filter_cons_True.
Qed.

Lemma popOperators_markers o1 stack output :
  markers (fst (popOperators o1 stack output)) = markers stack.
Proof.
  unfold markers. revert output.
  induction stack as [|top stack IH]; intros output; simpl; [done|].
  destruct top as [v|o2| |]; try done.
  destruct (popsBefore o1 o2); [|done].
  rewrite IH. by rewrite filter_cons_False.
Qed.

Lemma markers_zero stack : markers stack = 0 <-> LPAREN ∉ stack.
Proof.
  unfold markers. induction stack as [|top stack IH]; simpl.
  - split; [intros _; apply not_elem_of_nil|done].
  - rewrite not_elem_of_cons. destruct (decide (top = LPAREN)) as [->|Hne].
    + rewrite filter_cons_True by done. simpl. naive_solver.
    + rewrite filter_cons_False by done. rewrite IH. naive_solver.
Qed.

Lemma drainStack_fails stack output e :
  drainStack stack output = inl e <-> LPAREN ∈ stack /\ e = MismatchedParentheses.
Proof.
  revert output. induction stack as [|top stack IH]; intros output; simpl.
  - split; [done|]. intros [H _]. by apply not_elem_of_nil in H.
  - rewrite elem_of_cons.
    destruct top; try (rewrite IH; naive_solver).
    split; [intros [= <-]; auto|intros [_ ->]; done].
Qed.

Lemma rpnStep_fails st t e :
  rpnStep st t = inl e <->
  t = RPAREN /\ (LPAREN ∉ fst st) /\ e = MismatchedParentheses.
Proof.
  destruct st as [stack output]. destruct t as [v|o1| |]; simpl; try naive_solver.
  - destruct (popOperators o1 stack output). naive_solver.
  - destruct (popToLeftParen stack output) as [st'|] eqn:Hpop.
    + split; [done|]. intros (_ & Hnot & _).
      apply popToLeftParen_None with (output := output) in Hnot. congruence.
    + apply popToLeftParen_None in Hpop. naive_solver.
Qed.

(** The scan fails exactly at a [)] that finds no marker on the stack. *)
Lemma rpnScan_fails tokens st e :
  rpnScan tokens st = inl e <->
  e = MismatchedParentheses /\
  exists pre post stack output,
    tokens = pre ++ RPAREN :: post
    /\ rpnScan pre st = inr (stack, output)
    /\ LPAREN ∉ stack.
Proof.
  revert st. induction tokens as [|t tokens IH]; intros st; simpl.
  - split; [done|]. intros (_ & pre & post & ? & ? & Happ & _).
    by destruct pre.
  - destruct (rpnStep st t) as [e'|st'] eqn:Hstep; simpl.
    + apply rpnStep_fails in Hstep as (-> & Hnot & ->).
      split; [intros [= <-]|by intros [-> _]].
      split; [done|]. exists [], tokens, (fst st), (snd st). by destruct st.
    + rewrite IH. split; intros (-> & pre & post & stack & output & Happ & Hpre & Hnot);
        (split; [done|]).
      * exists (t :: pre), post, stack, output. subst tokens. simpl.
        by rewrite Hstep.
      * destruct pre as [|t' pre]; simpl in *.
        { simplify_eq. assert (rpnStep (stack, output) RPAREN
            = inl MismatchedParentheses) as Hfail by by apply rpnStep_fails.
          congruence. }
        simplify_eq. rewrite Hstep in Hpre. simpl in Hpre.
        by exists pre, post, stack, output.
Qed.

(** Failure of the converter started on a stack with [markers stack]
    open groups is parenthesis imbalance. *)
Lemma convert_fails_unbalanced tokens stack output :
  (exists e, (attempt (stack', output') := rpnScan tokens (stack, output) in
              drainStack stack' output') = inl e)
  <-> balancedFrom (markers stack) tokens = false.
Proof.
  revert stack output.
  induction tokens as [|t tokens IH]; intros stack output; simpl.
  - rewrite bool_decide_eq_false, markers_zero. split.
    + intros [e He]. apply drainStack_fails in He. naive_solver.
    + intros Hin. exists MismatchedParentheses. apply drainStack_fails.
      split; [|done]. by destruct (decide (LPAREN ∈ stack)).
  - destruct t as [v|o1| |]; simpl.
    + apply IH.
    + pose proof (popOperators_markers o1 stack output) as Hm.
      destruct (popOperators o1 stack output) as [stack' output']. simpl in *.
      rewrite <- Hm. apply (IH (OP o1 :: stack') output').
    + apply (IH (LPAREN :: stack) output).
    + destruct (popToLeftParen stack output) as [[stack' output']|] eqn:Hpop;
        simpl.
      * rewrite (popToLeftParen_markers _ _ _ _ Hpop). apply IH.
      * apply popToLeftParen_None, markers_zero in Hpop. rewrite Hpop.
        split; [done|]. intros _. by exists MismatchedParentheses.
Qed.

(** C5: the converter fails, always with MismatchedParentheses, exactly
    when a [)] is processed on a stack that holds no [(] marker (the stack
    empties without one being found) or the final drain meets a remaining
    [(] marker; this is the case exactly when the parentheses of the
    sequence are not balanced.  In particular [( A] fails. *)
Theorem toRPN_mismatched_parentheses (tokens : list Token) :
  (toRPN tokens = inl MismatchedParentheses <->
     (exists pre post stack output,
        tokens = pre ++ RPAREN :: post
        /\ rpnScan pre ([], []) = inr (stack, output)
        /\ LPAREN ∉ stack)
     \/ (exists stack output,
        rpnScan tokens ([], []) = inr (stack, output)
        /\ LPAREN ∈ stack))
  /\ (forall e, toRPN tokens = inl e -> e = MismatchedParentheses)
  /\ (toRPN tokens = inl MismatchedParentheses <-> balanced tokens = false)
  /\ toRPN [LPAREN; VAR vA] = inl MismatchedParentheses.
Proof.
  assert (forall e, toRPN tokens = inl e -> e = MismatchedParentheses) as Honly.
  { intros e. unfold toRPN.
    destruct (rpnScan tokens ([], [])) as [e'|[stack output]] eqn:Hscan; simpl.
    - intros [= <-]. by apply rpnScan_fails in Hscan as [-> _].
    - intros He. by apply drainStack_fails in He as [_ ->]. }
  repeat split; try done.
  - unfold toRPN.
    destruct (rpnScan tokens ([], [])) as [e'|[stack output]] eqn:Hscan; simpl.
    + intros [= ->]. left. by apply rpnScan_fails in Hscan as [_ ?].
    + intros He. right. exists stack, output. split; [done|].
      by apply drainStack_fails in He as [? _].
  - unfold toRPN. intros [(pre & post & stack & output & Happ & Hpre & Hnot)
                         |(stack & output & Hscan & Hin)].
    + assert (rpnScan tokens ([], []) = inl MismatchedParentheses) as ->; [|done].
      apply rpnScan_fails. split; [done|]. by exists pre, post, stack, output.
    + rewrite Hscan. simpl. by apply drainStack_fails.
  - intros He. apply (convert_fails_unbalanced tokens [] []). eauto.
  - intros Hbal. apply (convert_fails_unbalanced tokens [] []) in Hbal as [e He].
    change (toRPN tokens = inl e) in He. by rewrite <- (Honly e He).
Qed.

(** ** The validity checks *)

Lemma checkAt_adjacent tokens i :
  adjacentOperandsAt tokens i = true ->
  exists e, checkAt tokens i = inl e /\ isMissingOperator e = true.
Proof.
  unfold adjacentOperandsAt, checkAt.
  destruct (tokens !! i) as [[v|o| |]|]; try done;
    destruct (tokens !! S i) as [[v'|o'| |]|]; try done; intros _;
    unfold checkToken; simpl; eauto.
Qed.

Lemma checkAt_missing tokens i e :
  checkAt tokens i = inl e -> isMissingOperator e = true ->
  adjacentOperandsAt tokens i = true.
Proof.
  unfold adjacentOperandsAt, checkAt, checkToken.
  destruct (tokens !! i) as [[v|[| |]| |]|]; try done;
    destruct (tokens !! S i) as [[v'|[| |]| |]|]; simpl; try done;
    destruct (tokenBefore tokens i) as [[v''|o''| |]|]; simpl;
    intros [= <-]; done.
Qed.

Lemma checkAt_other tokens i e :
  checkAt tokens i = inl e -> isMissingOperator e = false ->
  operatorFaultAt tokens i = true.
Proof.
  unfold operatorFaultAt, checkAt, checkToken.
  destruct (tokens !! i) as [[v|[| |]| |]|]; try done;
    destruct (tokens !! S i) as [[v'|[| |]| |]|]; simpl; try done;
    (destruct i as [|p]; simpl;
     [|destruct (tokens !! p) as [[v''|o''| |]|]; simpl]);
    try done; intros [= <-]; done.
Qed.

Lemma checkAt_fault tokens j :
  operatorFaultAt tokens j = true -> exists e, checkAt tokens j = inl e.
Proof.
  unfold operatorFaultAt, checkAt, checkToken.
  destruct (tokens !! j) as [[v|[| |]| |]|]; try done;
    destruct (tokens !! S j) as [[v'|[| |]| |]|]; simpl; try done;
    (destruct j as [|p]; simpl;
     [|destruct (tokens !! p) as [[v''|o''| |]|]; simpl]);
    eauto; done.
Qed.

(** The loop stops at the first index whose check fails. *)
Lemma checkIndices_fails tokens a n e :
  checkIndices tokens (seq a n) = inl e <->
  exists i, a <= i < a + n /\ checkAt tokens i = inl e
            /\ forall j, a <= j < i -> checkAt tokens j = inr tt.
Proof.
  revert a. induction n as [|n IH]; intros a; simpl.
  - split; [done|]. intros (i & Hi & _). lia.
  - destruct (checkAt tokens a) as [e'|[]] eqn:Ha; simpl.
    + split.
      * intros [= <-]. exists a. repeat split; try lia. done.
      * intros (i & Hi & He & Hbefore).
        destruct (decide (i = a)) as [->|Hne]; [congruence|].
        specialize (Hbefore a). rewrite Ha in Hbefore.
        discriminate Hbefore. lia.
    + rewrite IH. split; intros (i & Hi & He & Hbefore); exists i.
      * repeat split; try lia; try done. intros j Hj.
        destruct (decide (j = a)) as [->|Hne]; [done|]. apply Hbefore. lia.
      * assert (i <> a) by congruence.
        repeat split; try lia; try done. intros j Hj. apply Hbefore. lia.
Qed.

Lemma checkIndices_reports_missing tokens n a i :
  a <= i < a + n ->
  adjacentOperandsAt tokens i = true ->
  (forall j, a <= j < i -> operatorFaultAt tokens j = false) ->
  exists e, checkIndices tokens (seq a n) = inl e
            /\ isMissingOperator e = true.
Proof.
  revert a. induction n as [|n IH]; intros a Hi Hadj Hbefore; [lia|]. simpl.
  destruct (checkAt tokens a) as [e|[]] eqn:Ha; simpl.
  - exists e. split; [done|].
    destruct (isMissingOperator e) eqn:Hkind; [done|].
    apply checkAt_other in Ha; [|done].
    destruct (decide (a = i)) as [->|Hne].
    + unfold operatorFaultAt, adjacentOperandsAt in *.
      destruct (tokens !! i) as [[v|[| |]| |]|]; done.
    + rewrite Hbefore in Ha by lia. done.
  - apply IH; [|done|intros j Hj; apply Hbefore; lia].
    destruct (decide (a = i)) as [->|Hne]; [|lia].
    apply checkAt_adjacent in Hadj as (e' & He' & _). congruence.
Qed.

Lemma adjacentOperandsAt_lt tokens i :
  adjacentOperandsAt tokens i = true -> i < length tokens.
Proof.
  unfold adjacentOperandsAt. intros H. apply lookup_lt_is_Some.
  destruct (tokens !! i); [eauto|done].
Qed.

Lemma validityChecks_missing tokens :
  (exists e, validityChecks tokens = inl e /\ isMissingOperator e = true)
  <-> exists i, adjacentOperandsAt tokens i = true
                /\ forall j, j < i -> operatorFaultAt tokens j = false.
Proof.
  unfold validityChecks. case_bool_decide as Hlen.
  - split; [by intros (e & [= <-] & ?)|]. intros (i & Hadj & _).
    apply adjacentOperandsAt_lt in Hadj. lia.
  - split.
    + intros (e & He & Hmiss). apply checkIndices_fails in He as (i & Hi & He & Hbefore).
      exists i. split; [by eapply checkAt_missing|]. intros j Hj.
      destruct (operatorFaultAt tokens j) eqn:Hfault; [|done].
      apply checkAt_fault in Hfault as [e' He'].
      rewrite Hbefore in He' by lia. done.
    + intros (i & Hadj & Hbefore).
      apply (checkIndices_reports_missing tokens (length tokens) 0 i);
        [|done|intros j Hj; apply Hbefore; lia].
      apply adjacentOperandsAt_lt in Hadj. lia.
Qed.

(** The converter and the evaluator never report a missing operator. *)
Lemma evalRPN_not_missing rpn env e :
  evalRPN rpn env = inl e -> isMissingOperator e = false.
Proof.
  unfold evalRPN. generalize (@nil bool).
  induction rpn as [|t rpn IH]; intros st; simpl.
  - destruct st as [|v [|w st]]; intros [= <-]; done.
  - destruct (evalStep env st t) as [e'|st'] eqn:Hstep; simpl; [|apply IH].
    intros [= <-].
    destruct t as [[v|[| |]| |]|]; simpl in Hstep;
      try (by destruct v); try (by simplify_eq);
      destruct st as [|b [|a st]]; by simplify_eq.
Qed.

Lemma toRPN_only_mismatched tokens e :
  toRPN tokens = inl e -> e = MismatchedParentheses.
Proof.
  unfold toRPN.
  destruct (rpnScan tokens ([], [])) as [e'|[stack output]] eqn:Hscan; simpl.
  - intros [= <-]. by apply rpnScan_fails in Hscan as [-> _].
  - intros He. by apply drainStack_fails in He as [_ ->].
Qed.

Lemma safeEvaluate_missing tokens env e :
  isMissingOperator e = true ->
  safeEvaluate tokens env = inl e <-> validityChecks tokens = inl e.
Proof.
  intros Hmiss. unfold safeEvaluate.
  destruct (validityChecks tokens) as [e'|[]]; simpl;
    [split; intros [= ->]; done|].
  split; [|done].
  destruct (toRPN tokens) as [e'|rpn] eqn:Hrpn; simpl.
  - intros [= ->]. apply toRPN_only_mismatched in Hrpn. by subst e.
  - intros He. apply evalRPN_not_missing in He. congruence.
Qed.

(** C1, as the claim has it, does not hold: [( A )] has a [(] immediately
    followed by a variable and evaluates without error; and in
    [&& A B] the variable [A] is immediately followed by a variable, yet
    the error reported is the one of the operator met first. *)
Lemma missing_operator_claim_fails :
  adjacentOrOpenAt [LPAREN; VAR vA; RPAREN] 0 = true
  /\ safeEvaluate [LPAREN; VAR vA; RPAREN] ∅ = inr false
  /\ adjacentOrOpenAt [OP opAND; VAR vA; VAR vB] 1 = true
  /\ safeEvaluate [OP opAND; VAR vA; VAR vB] ∅ = inl BinaryNeedsOperands.
Proof. repeat split; reflexivity. Qed.

(** C1 (amended): the validity checks report a missing operator (one of
    the two MissingOperator messages) exactly when some variable or [)]
    is immediately followed by a variable or a [(] and no operator
    before that position is misplaced (a misplaced operator met earlier
    in the scan is reported instead).  A [(] immediately followed by a
    variable or [(] is not flagged. *)
Theorem safeEvaluate_missing_operator (tokens : list Token)
    (env : gmap string bool) :
  (exists e, safeEvaluate tokens env = inl e /\ isMissingOperator e = true)
  <-> exists i, adjacentOperandsAt tokens i = true
                /\ forall j, j < i -> operatorFaultAt tokens j = false.
Proof.
  rewrite <- validityChecks_missing.
  split; intros (e & He & Hmiss); exists e; (split; [|done]);
    by apply (safeEvaluate_missing tokens env e Hmiss).
Qed.

(** ** The variables used *)

Lemma setAdd_NoDup s x : NoDup s -> NoDup (setAdd s x).
Proof.
  intros Hs. unfold setAdd. case_bool_decide as Hin; [done|].
  apply NoDup_app. repeat split; [done| |apply NoDup_singleton].
  intros y Hy ->%list_elem_of_singleton. done.
Qed.

Lemma elem_of_setAdd s x y : y ∈ setAdd s x <-> y ∈ s \/ y = x.
Proof.
  unfold setAdd. case_bool_decide as Hin.
  - split; [auto|]. by intros [?| ->].
  - by rewrite elem_of_app, list_elem_of_singleton.
Qed.

Lemma collect_NoDup tokens s : NoDup s -> NoDup (foldl addUsed s tokens).
Proof.
  revert s. induction tokens as [|t tokens IH]; intros s Hs; simpl; [done|].
  apply IH. destruct t as [v| | |]; simpl; try done.
  case_bool_decide; [by apply setAdd_NoDup|done].
Qed.

Lemma elem_of_collect tokens s k :
  k ∈ foldl addUsed s tokens <->
  k ∈ s \/ (k ∈ ["A"; "B"; "C"] /\ exists v, varKey v = k /\ VAR v ∈ tokens).
Proof.
  revert s. induction tokens as [|t tokens IH]; intros s; simpl.
  - split; [auto|]. intros [?|(_ & v & _ & Hin)]; [done|].
    by apply not_elem_of_nil in Hin.
  - rewrite IH. clear IH.
    assert (forall v', VAR v' ∈ t :: tokens <-> VAR v' = t \/ VAR v' ∈ tokens)
      as Hcons by (intros v'; apply elem_of_cons).
    setoid_rewrite Hcons. clear Hcons.
    destruct t as [v| | |]; simpl;
      try (split; (intros [?|(? & v' & ? & Hv')];
                   [by left|right; split; [done|]; exists v'; split; [done|]]);
           [by right|by destruct Hv']).
    case_bool_decide as Habc.
    + rewrite elem_of_setAdd. split.
      * intros [[?| ->]|(? & v' & ? & ?)]; [by left| |].
        -- right. split; [done|]. exists v. auto.
        -- right. split; [done|]. exists v'. auto.
      * intros [?|(? & v' & Hkey & [[= ->]|?])]; [by left;left|by left; right|].
        right. split; [done|]. by exists v'.
    + split.
      * intros [?|(? & v' & ? & ?)]; [by left|].
        right. split; [done|]. exists v'. auto.
      * intros [?|(? & v' & Hkey & [[= ->]|?])]; [by left|by subst k|].
        right. split; [done|]. by exists v'.
Qed.

Lemma collectVars_NoDup tokens : NoDup (collectVars tokens).
Proof. apply collect_NoDup, NoDup_nil_2. Qed.

Lemma elem_of_collectVars tokens v :
  v ∈ [vA; vB; vC] ->
  varKey v ∈ collectVars tokens <-> VAR v ∈ tokens.
Proof.
  intros Hv. unfold collectVars. rewrite elem_of_collect. split.
  - intros [Hnil|(_ & v' & Hkey & Hin)]; [by apply not_elem_of_nil in Hnil|].
    assert (v' = v) as -> by by destruct v, v'. done.
  - intros Hin. right. split; [|by exists v].
    apply list_elem_of_In in Hv. apply list_elem_of_In. simpl in *.
    destruct Hv as [<-|[<-|[<-|[]]]]; simpl; auto.
Qed.

Lemma collectVars_subset tokens k :
  k ∈ collectVars tokens -> k ∈ ["A"; "B"; "C"].
Proof.
  unfold collectVars. rewrite elem_of_collect.
  intros [Hnil|[? _]]; [by apply not_elem_of_nil in Hnil|done].
Qed.

Lemma elem_of_ABC k : k ∈ ["A"; "B"; "C"] -> k = "A" \/ k = "B" \/ k = "C".
Proof.
  intros Hk. apply list_elem_of_In in Hk. simpl in Hk.
  destruct Hk as [<-|[<-|[<-|[]]]]; auto.
Qed.

(** Sorting a duplicate-free list of names among [A], [B], [C] lists
    those it holds in alphabetical order. *)
Ltac name_cases Hsub x :=
  let H := fresh in
  assert (x = "A" \/ x = "B" \/ x = "C") as H
    by (apply elem_of_ABC, Hsub; set_solver);
  destruct H as [->|[->| ->]].

Lemma NoDup_first_three (x y z : string) l :
  NoDup (x :: y :: z :: l) -> x <> y /\ x <> z /\ y <> z.
Proof.
  intros Hdup.
  apply NoDup_cons in Hdup as [Hx Hdup]. apply NoDup_cons in Hdup as [Hy _].
  repeat split; intros ->; (apply Hx || apply Hy); set_solver.
Qed.

Lemma sort_ABC s :
  NoDup s -> (forall k, k ∈ s -> k ∈ ["A"; "B"; "C"]) ->
  sort s = filter (fun k => k ∈ s) ["A"; "B"; "C"].
Proof.
  intros Hdup Hsub.
  destruct s as [|x [|y [|z [|w s]]]].
  - reflexivity.
  - name_cases Hsub x; reflexivity.
  - apply NoDup_cons in Hdup as [Hxy%not_elem_of_cons _].
    name_cases Hsub x; name_cases Hsub y;
      try (by destruct Hxy); reflexivity.
  - apply NoDup_first_three in Hdup as (Hxy & Hxz & Hyz).
    name_cases Hsub x; name_cases Hsub y; try done;
      name_cases Hsub z; try done; reflexivity.
  - exfalso.
    pose proof (NoDup_first_three _ _ _ _ Hdup) as (Hxy & Hxz & Hyz).
    apply NoDup_cons in Hdup as [Hx Hdup].
    apply NoDup_first_three in Hdup as (_ & Hyw & Hzw).
    assert (x <> w) as Hxw by (intros ->; apply Hx; set_solver).
    name_cases Hsub x; name_cases Hsub y; try done;
      name_cases Hsub z; try done; name_cases Hsub w; done.
Qed.

(** [usedVars] lists the names of the free variables that occur, each
    once, [A] before [B] before [C]. *)
Lemma usedVars_freeVars tokens : usedVars tokens = varKey <$> freeVars tokens.
Proof.
  unfold usedVars, freeVars.
  rewrite sort_ABC by (apply collectVars_NoDup || apply collectVars_subset).
  pose proof (elem_of_collectVars tokens vA) as HA.
  pose proof (elem_of_collectVars tokens vB) as HB.
  pose proof (elem_of_collectVars tokens vC) as HC.
  simpl in HA, HB, HC.
  rewrite !filter_cons, !filter_nil.
  repeat case_decide; simpl; try reflexivity; exfalso;
    set_solver.
Qed.

(** ** The 32-bit operators on the masks of the enumeration *)

Lemma toInt32_small z : (- 2 ^ 31 <= z < 2 ^ 31)%Z -> toInt32 z = z.
Proof. intros Hz. unfold toInt32. rewrite Z.mod_small; lia. Qed.

(** [1 << n] is [2 ^ n] as long as the shift stays below the sign bit. *)
Lemma shl_one n : (0 <= n <= 30)%Z -> shl 1 n = (2 ^ n)%Z.
Proof.
  intros Hn. unfold shl.
  rewrite (toInt32_small 1) by lia.
  rewrite Z.mod_small by lia.
  rewrite Z.shiftl_1_l.
  assert (2 ^ n <= 2 ^ 30)%Z by (apply Z.pow_le_mono_r; lia).
  apply toInt32_small. lia.
Qed.

(** [Boolean((mask >> k) & 1)] is bit [k] of [mask]. *)
Lemma Boolean_bit mask k :
  (0 <= mask < 2 ^ 31)%Z -> (0 <= k < 32)%Z ->
  Boolean (band (sar mask k) 1) = Z.testbit mask k.
Proof.
  intros Hmask Hk. unfold Boolean, band, sar.
  rewrite (toInt32_small mask), (toInt32_small 1) by lia.
  rewrite Z.mod_small by lia.
  assert (0 <= Z.shiftr mask k <= mask)%Z as Hshift.
  { rewrite Z.shiftr_div_pow2 by lia. split.
    - apply Z.div_pos; lia.
    - apply Z.div_le_upper_bound; [lia|]. nia. }
  rewrite toInt32_small by lia.
  change 1%Z with (Z.ones 1) at 1. rewrite Z.land_ones by lia.
  change (2 ^ 1)%Z with 2%Z. rewrite <- Z.bit0_mod.
  rewrite Z.shiftr_spec, Z.add_0_l by lia.
  by destruct (Z.testbit mask k).
Qed.

Lemma testbit_above mask n k :
  (0 <= mask < 2 ^ n)%Z -> (0 <= n <= k)%Z -> Z.testbit mask k = false.
Proof.
  intros Hmask Hk. rewrite <- (Z.mod_small mask (2 ^ n)) by lia.
  apply Z.mod_pow2_bits_high. lia.
Qed.

(** ** The assignment built for a mask *)

Lemma assignBits_notin n mask vars i m v :
  v ∉ vars -> assignBits n mask i vars m !! v = m !! v.
Proof.
  revert i m. induction vars as [|w vars IH]; intros i m Hv; simpl; [done|].
  apply not_elem_of_cons in Hv as [Hne Hv].
  rewrite IH by done. by rewrite lookup_insert_ne.
Qed.

Lemma assignBits_lookup n mask vars i m j v :
  NoDup vars -> vars !! j = Some v ->
  assignBits n mask i vars m !! v
  = Some (Boolean (band (sar mask (n - 1 - Z.of_nat (i + j))) 1)).
Proof.
  revert i m j. induction vars as [|w vars IH]; intros i m j Hdup Hj; [done|].
  apply NoDup_cons in Hdup as [Hw Hdup]. simpl.
  destruct j as [|j]; simpl in Hj.
  - simplify_eq. rewrite assignBits_notin by done.
    rewrite lookup_insert_eq. by rewrite Nat.add_0_r.
  - rewrite (IH (S i) _ j) by done. do 4 f_equal. lia.
Qed.

(** The variable at position [j] of the list receives bit [n - 1 - j] of
    the mask: the first variable takes the most significant bit. *)
Lemma assignmentOf_lookup vars mask j v :
  NoDup vars -> length vars <= 31 -> (0 <= mask < 2 ^ 31)%Z ->
  vars !! j = Some v ->
  assignmentOf vars mask !! v
  = Some (Z.testbit mask (Z.of_nat (length vars) - 1 - Z.of_nat j)).
Proof.
  intros Hdup Hlen Hmask Hj. unfold assignmentOf.
  rewrite (assignBits_lookup _ _ _ _ _ j v) by done.
  apply lookup_lt_Some in Hj as Hlt.
  rewrite Boolean_bit by lia. do 2 f_equal.
Qed.

Lemma assignmentOf_other vars mask v :
  v ∉ vars -> assignmentOf vars mask !! v = initialAssignment !! v.
Proof. apply assignBits_notin. Qed.

(** Two masks below [2 ^ n] that give every variable the same value are
    the same mask. *)
Lemma assignmentOf_inj vars m1 m2 :
  NoDup vars -> length vars <= 30 ->
  (0 <= m1 < 2 ^ Z.of_nat (length vars))%Z ->
  (0 <= m2 < 2 ^ Z.of_nat (length vars))%Z ->
  (fun v => assignmentOf vars m1 !! v) <$> vars
  = (fun v => assignmentOf vars m2 !! v) <$> vars ->
  m1 = m2.
Proof.
  intros Hdup Hlen Hm1 Hm2 Hcells.
  assert (2 ^ Z.of_nat (length vars) <= 2 ^ 30)%Z
    by (apply Z.pow_le_mono_r; lia).
  apply Z.bits_inj'. intros k Hk.
  destruct (decide (k < Z.of_nat (length vars))%Z) as [Hlt|Hge].
  - set (j := length vars - 1 - Z.to_nat k).
    destruct (lookup_lt_is_Some_2 vars j) as [v Hv]; [lia|].
    apply (f_equal (fun l => l !! j)) in Hcells.
    rewrite !list_lookup_fmap, Hv in Hcells. simpl in Hcells.
    rewrite !(assignmentOf_lookup vars _ j v) in Hcells by (done || lia).
    replace (Z.of_nat (length vars) - 1 - Z.of_nat j)%Z with k in Hcells by lia.
    by simplify_eq.
  - rewrite !(testbit_above _ (Z.of_nat (length vars)) k) by lia. done.
Qed.

(** ** The truth table *)

Lemma usedVars_NoDup tokens : NoDup (usedVars tokens).
Proof.
  rewrite usedVars_freeVars. apply (NoDup_fmap_2 varKey), NoDup_filter.
  repeat (apply NoDup_cons_2; [set_solver|]). apply NoDup_nil_2.
Qed.

Lemma length_usedVars tokens :
  length (usedVars tokens) = length (freeVars tokens).
Proof. by rewrite usedVars_freeVars, length_fmap. Qed.

Lemma length_usedVars_le tokens : length (usedVars tokens) <= 3.
Proof. rewrite length_usedVars. apply (length_filter _ [vA; vB; vC]). Qed.

Lemma Z_to_nat_pow2 (n : nat) : Z.to_nat (2 ^ Z.of_nat n) = 2 ^ n.
Proof.
  apply Nat2Z.inj. rewrite Nat2Z.inj_pow. simpl (Z.of_nat 2).
  apply Z2Nat.id, Z.pow_nonneg. lia.
Qed.

(** The table, once shown, is empty without used variables and otherwise
    has the row of every mask from [0] up to [2 ^ n - 1], in that order. *)
Lemma truthTable_shown tokens :
  truthTable true tokens =
  if decide (usedVars tokens = []) then []
  else rowFor tokens (usedVars tokens)
         <$> seqZ 0 (2 ^ Z.of_nat (length (usedVars tokens))).
Proof.
  unfold truthTable. simpl.
  pose proof (length_usedVars_le tokens) as Hle.
  case_bool_decide as Hlen; case_decide as Hnil; try done.
  - by apply nil_length_inv in Hlen.
  - by rewrite Hnil in Hlen.
  - by rewrite shl_one by lia.
Qed.

(** Nothing is computed while the table is hidden. *)
Lemma truthTable_hidden tokens : truthTable false tokens = [].
Proof. reflexivity. Qed.

Lemma truthTable_length tokens :
  length (truthTable true tokens) =
  if decide (length (usedVars tokens) = 0) then 0
  else 2 ^ length (usedVars tokens).
Proof.
  rewrite truthTable_shown.
  case_decide as Hnil; case_decide as Hlen; try done.
  - by rewrite Hnil in Hlen.
  - by apply nil_length_inv in Hlen.
  - by rewrite length_fmap, length_seqZ, Z_to_nat_pow2.
Qed.

Lemma truthTable_lookup tokens (mask : nat) :
  mask < length (truthTable true tokens) ->
  truthTable true tokens !! mask
  = Some (rowFor tokens (usedVars tokens) (Z.of_nat mask)).
Proof.
  rewrite truthTable_length. rewrite truthTable_shown.
  case_decide as Hlen; [lia|]. intros Hmask.
  case_decide as Hnil; [by rewrite Hnil in Hlen|].
  rewrite list_lookup_fmap, lookup_seqZ_lt; [done|].
  rewrite <- (Nat2Z.inj_pow 2). lia.
Qed.

Lemma rowCells_rowFor tokens vars mask :
  rowCells vars (rowFor tokens vars mask)
  = (fun v => assignmentOf vars mask !! v) <$> vars.
Proof. reflexivity. Qed.

Lemma truthTable_cells_NoDup tokens :
  NoDup (rowCells (usedVars tokens) <$> truthTable true tokens).
Proof.
  rewrite truthTable_shown. case_decide as Hnil; [apply NoDup_nil_2|].
  rewrite <- list_fmap_compose.
  pose proof (length_usedVars_le tokens) as Hle.
  apply NoDup_fmap_2_strong; [|apply NoDup_seqZ].
  intros m1 m2 Hm1%elem_of_seqZ Hm2%elem_of_seqZ Hcells. simpl in Hcells.
  rewrite !rowCells_rowFor in Hcells.
  apply (assignmentOf_inj (usedVars tokens));
    [apply usedVars_NoDup|lia|lia|lia|done].
Qed.

(** C7: for a token sequence with [k] distinct free variables among [A],
    [B], [C] (which [usedVars] lists in alphabetical order), the truth
    table has exactly [2 ^ k] rows when [k > 0] and is the empty sequence
    when [k = 0]; the assignment tuples of its rows, and so the
    assignments themselves, are pairwise distinct. *)
Theorem truthTable_row_count (tokens : list Token) :
  usedVars tokens = varKey <$> freeVars tokens
  /\ length (truthTable true tokens)
     = (if decide (length (freeVars tokens) = 0) then 0
        else 2 ^ length (freeVars tokens))
  /\ (truthTable true tokens = [] <-> length (freeVars tokens) = 0)
  /\ NoDup (rowCells (usedVars tokens) <$> truthTable true tokens)
  /\ NoDup (assignment <$> truthTable true tokens).
Proof.
  pose proof (truthTable_length tokens) as Hlen.
  rewrite length_usedVars in Hlen.
  split; [apply usedVars_freeVars|]. split; [done|]. split; [|split].
  - split.
    + intros Hnil. rewrite Hnil in Hlen. simpl in Hlen.
      case_decide as Hk; [done|].
      pose proof (Nat.pow_nonzero 2 (length (freeVars tokens))). lia.
    + intros Hk. rewrite Hk in Hlen. by apply nil_length_inv.
  - apply truthTable_cells_NoDup.
  - apply (NoDup_fmap_1
             (fun a : gmap string bool => (fun v => a !! v) <$> usedVars tokens)).
    rewrite <- list_fmap_compose. apply truthTable_cells_NoDup.
Qed.

(** ** Failure does not depend on the environment *)

Lemma evalStep_shape env1 env2 st1 st2 t :
  length st1 = length st2 ->
  shape (evalStep env1 st1 t) = shape (evalStep env2 st2 t).
Proof.
  intros Hlen. destruct t as [[v|[| |]| |]|]; simpl; try done.
  - destruct v; simpl; by rewrite Hlen.
  - destruct st1 as [|b1 [|a1 st1]], st2 as [|b2 [|a2 st2]]; simpl in *;
      first [done | lia | f_equal; lia].
  - destruct st1 as [|b1 [|a1 st1]], st2 as [|b2 [|a2 st2]]; simpl in *;
      first [done | lia | f_equal; lia].
  - destruct st1 as [|b1 st1], st2 as [|b2 st2]; simpl in *;
      first [done | lia | f_equal; lia].
Qed.

Lemma evalLoop_shape env1 env2 rpn st1 st2 :
  length st1 = length st2 ->
  shape (evalLoop env1 rpn st1) = shape (evalLoop env2 rpn st2).
Proof.
  revert st1 st2. induction rpn as [|t rpn IH]; intros st1 st2 Hlen; simpl.
  - by rewrite Hlen.
  - pose proof (evalStep_shape env1 env2 st1 st2 t Hlen) as Hstep.
    destruct (evalStep env1 st1 t) as [e1|st1'],
             (evalStep env2 st2 t) as [e2|st2']; simpl in *; try done.
    apply IH. by simplify_eq.
Qed.

Lemma evalRPN_fails_any_env rpn env1 env2 e :
  evalRPN rpn env1 = inl e -> evalRPN rpn env2 = inl e.
Proof.
  unfold evalRPN.
  pose proof (evalLoop_shape env1 env2 rpn [] [] eq_refl) as Hshape.
  destruct (evalLoop env1 rpn []) as [e1|st1],
           (evalLoop env2 rpn []) as [e2|st2]; simpl in *; try done.
  - by simplify_eq.
  - destruct st1 as [|v1 [|w1 st1]], st2 as [|v2 [|w2 st2]]; simpl in *;
      by simplify_eq.
Qed.

(** A sequence that fails under one environment fails, with the same
    error, under all. *)
Lemma safeEvaluate_fails_any_env tokens env1 env2 e :
  safeEvaluate tokens env1 = inl e -> safeEvaluate tokens env2 = inl e.
Proof.
  unfold safeEvaluate.
  destruct (validityChecks tokens) as [e'|[]]; simpl; [done|].
  destruct (toRPN tokens) as [e'|rpn]; simpl; [done|].
  apply evalRPN_fails_any_env.
Qed.

(** C9: the row of every mask of the enumeration holds the assignment
    built for that mask together with the outcome of the pipeline under
    it, the error sentinel when the pipeline fails; a failure aborts
    nothing: the table still has its [2 ^ n] rows, one per assignment, and
    since a sequence that fails under one environment fails under all,
    each of them carries the sentinel. *)
Theorem truthTable_failure_rows (tokens : list Token) (mask : nat) :
  mask < length (truthTable true tokens) ->
  let env := assignmentOf (usedVars tokens) (Z.of_nat mask) in
  truthTable true tokens !! mask
  = Some (mkRow env (resultCell (safeEvaluate tokens env)))
  /\ length (truthTable true tokens) = 2 ^ length (usedVars tokens)
  /\ forall e, safeEvaluate tokens env = inl e ->
       truthTable true tokens !! mask = Some (mkRow env (inr errorSentinel))
       /\ forall row, row ∈ truthTable true tokens ->
            RESULT row = inr errorSentinel.
Proof.
  intros Hmask env.
  pose proof (truthTable_lookup tokens mask Hmask) as Hrow.
  split; [done|]. split.
  - rewrite truthTable_length in *. case_decide; [lia|done].
  - intros e Hfail. split.
    + rewrite Hrow. unfold rowFor. fold env. by rewrite Hfail.
    + intros row [i Hi]%list_elem_of_lookup.
      rewrite truthTable_lookup in Hi by (by eapply lookup_lt_Some).
      simplify_eq. unfold rowFor. simpl.
      by rewrite (safeEvaluate_fails_any_env tokens env _ e Hfail).
Qed.

Lemma truthTable_failure_rows_witness :
  let tokens := [VAR vA; VAR vB] in
  let env := assignmentOf (usedVars tokens) (Z.of_nat 2) in
  truthTable true tokens !! 2
  = Some (mkRow env (resultCell (safeEvaluate tokens env)))
  /\ length (truthTable true tokens) = 2 ^ length (usedVars tokens)
  /\ forall e, safeEvaluate tokens env = inl e ->
       truthTable true tokens !! 2 = Some (mkRow env (inr errorSentinel))
       /\ forall row, row ∈ truthTable true tokens ->
            RESULT row = inr errorSentinel.
Proof.
  apply (truthTable_failure_rows [VAR vA; VAR vB] 2). vm_compute. lia.
Defined.

(** ** Evaluation reads only the variables that occur *)

Lemma sourced_push_output T stack output t :
  sourced T (stack, output) -> t ∈ T -> sourced T (stack, output ++ [Tok t]).
Proof.
  intros [Hs Ho] Ht. split; [done|]. simpl.
  apply Forall_app. split; [done|]. apply Forall_singleton. eauto.
Qed.

Lemma sourced_pop T top stack output :
  sourced T (top :: stack, output) -> sourced T (stack, output ++ [Tok top]).
Proof.
  intros [Hs Ho]. simpl in *. apply Forall_cons in Hs as [Htop Hs].
  by apply sourced_push_output.
Qed.

Lemma popOperators_sourced T o1 stack output :
  sourced T (stack, output) -> sourced T (popOperators o1 stack output).
Proof.
  revert output. induction stack as [|top stack IH]; intros output Hsrc;
    simpl; [done|].
  destruct top as [v|o2| |]; try done.
  destruct (popsBefore o1 o2); [|done]. by apply IH, sourced_pop.
Qed.

Lemma popToLeftParen_sourced T stack output st' :
  sourced T (stack, output) -> popToLeftParen stack output = Some st' ->
  sourced T st'.
Proof.
  revert output. induction stack as [|top stack IH]; intros output Hsrc;
    simpl; [done|].
  destruct top as [v|o2| |]; try (by apply IH, sourced_pop).
  intros [= <-]. destruct Hsrc as [Hs Ho]. simpl in *.
  apply Forall_cons in Hs as [_ Hs]. by split.
Qed.

Lemma drainStack_sourced T stack output rpn :
  sourced T (stack, output) -> drainStack stack output = inr rpn ->
  Forall (fun x => exists t, x = Tok t /\ t ∈ T) rpn.
Proof.
  revert output. induction stack as [|top stack IH]; intros output Hsrc;
    simpl.
  - intros [= <-]. apply Hsrc.
  - destruct top as [v|o2| |]; try (by apply IH, sourced_pop). done.
Qed.

Lemma rpnStep_sourced T st t st' :
  sourced T st -> t ∈ T -> rpnStep st t = inr st' -> sourced T st'.
Proof.
  destruct st as [stack output]. intros Hsrc Ht.
  destruct t as [v|o1| |]; simpl.
  - intros [= <-]. by apply sourced_push_output.
  - pose proof (popOperators_sourced T o1 stack output Hsrc) as Hpop.
    destruct (popOperators o1 stack output) as [stack' output'].
    intros [= <-]. destruct Hpop as [Hs Ho]. split; [|done].
    by apply Forall_cons.
  - intros [= <-]. destruct Hsrc as [Hs Ho]. split; [|done].
    by apply Forall_cons.
  - destruct (popToLeftParen stack output) as [st''|] eqn:Hpop; [|done].
    intros [= <-]. by eapply popToLeftParen_sourced.
Qed.

Lemma rpnScan_sourced T tokens st st' :
  sourced T st -> Forall (fun t => t ∈ T) tokens ->
  rpnScan tokens st = inr st' -> sourced T st'.
Proof.
  revert st. induction tokens as [|t tokens IH]; intros st Hsrc Hall; simpl.
  - by intros [= <-].
  - apply Forall_cons in Hall as [Ht Hall].
    destruct (rpnStep st t) as [e|st''] eqn:Hstep; simpl; [done|].
    apply IH; [|done]. by eapply rpnStep_sourced.
Qed.

(** The postfix sequence holds tokens of the expression only. *)
Lemma toRPN_sourced tokens rpn :
  toRPN tokens = inr rpn ->
  Forall (fun x => exists t, x = Tok t /\ t ∈ tokens) rpn.
Proof.
  unfold toRPN.
  destruct (rpnScan tokens ([], [])) as [e|[stack output]] eqn:Hscan;
    simpl; [done|].
  apply drainStack_sourced.
  apply (rpnScan_sourced tokens tokens ([], [])); [by split| |done].
  by apply Forall_forall.
Qed.

Lemma evalLoop_agree env1 env2 rpn st :
  Forall (fun x => forall v, x = Tok (VAR v) ->
                             operandValue env1 v = operandValue env2 v) rpn ->
  evalLoop env1 rpn st = evalLoop env2 rpn st.
Proof.
  intros Hall. revert st.
  induction Hall as [|t rpn Ht Hall IH]; intros st; simpl; [done|].
  assert (evalStep env1 st t = evalStep env2 st t) as ->.
  { destruct t as [[v| | |]|]; try done.
    by rewrite !evalStep_var, (Ht v). }
  destruct (evalStep env2 st t); simpl; [done|apply IH].
Qed.

(** Two environments that agree on the variables of an expression give
    it the same outcome. *)
Lemma safeEvaluate_agree tokens env1 env2 :
  (forall v, VAR v ∈ tokens -> operandValue env1 v = operandValue env2 v) ->
  safeEvaluate tokens env1 = safeEvaluate tokens env2.
Proof.
  intros Hagree. unfold safeEvaluate.
  destruct (validityChecks tokens) as [e|[]]; simpl; [done|].
  destruct (toRPN tokens) as [e|rpn] eqn:Hrpn; simpl; [done|].
  unfold evalRPN. rewrite (evalLoop_agree env1 env2); [done|].
  apply toRPN_sourced in Hrpn.
  eapply Forall_impl; [exact Hrpn|]. simpl.
  intros x (t & -> & Ht) v [= ->]. by apply Hagree.
Qed.

(** C2, as the claim has it, does not hold: the masks are enumerated
    from [0] upwards, so the first row of the table of [A] has [A] false
    and the second has [A] true. *)
Lemma truthTable_A_false_first :
  (fun row => (assignment row !! "A", RESULT row)) <$> truthTable true [VAR vA]
  = [(Some false, inl false); (Some true, inl true)].
Proof. vm_compute. reflexivity. Qed.

Lemma usedVars_only_A tokens :
  VAR vA ∈ tokens -> VAR vB ∉ tokens -> VAR vC ∉ tokens ->
  usedVars tokens = ["A"].
Proof.
  intros HA HB HC. rewrite usedVars_freeVars. unfold freeVars.
  rewrite !filter_cons, filter_nil. by repeat case_decide.
Qed.

(** C2 (amended): for an expression whose only free variable is [A], the
    truth table has exactly two rows, in the order [A = false] first,
    then [A = true] (increasing mask; the other two variables stay
    false), each row carrying the outcome of evaluating the expression
    under the row's assignment, which is its outcome under every
    environment that gives [A] the value of the row. *)
Theorem truthTable_only_A (tokens : list Token) :
  VAR vA ∈ tokens -> VAR vB ∉ tokens -> VAR vC ∉ tokens ->
  let envF := <["A" := false]> initialAssignment in
  let envT := <["A" := true]> initialAssignment in
  truthTable true tokens
  = [mkRow envF (resultCell (safeEvaluate tokens envF));
     mkRow envT (resultCell (safeEvaluate tokens envT))]
  /\ envF !! "A" = Some false /\ envT !! "A" = Some true
  /\ forall env : gmap string bool,
       safeEvaluate tokens env
       = safeEvaluate tokens (if default false (env !! "A") then envT else envF).
Proof.
  intros HA HB HC envF envT. split; [|split; [done|split; [done|]]].
  - rewrite truthTable_shown, (usedVars_only_A tokens) by done.
    reflexivity.
  - intros env. apply safeEvaluate_agree. intros v Hv.
    destruct v; try done; simpl.
    by destruct (default false (env !! "A")).
Qed.

Lemma truthTable_only_A_witness :
  let tokens := [OP opNOT; VAR vA] in
  let envF := <["A" := false]> initialAssignment in
  let envT := <["A" := true]> initialAssignment in
  truthTable true tokens
  = [mkRow envF (resultCell (safeEvaluate tokens envF));
     mkRow envT (resultCell (safeEvaluate tokens envT))]
  /\ envF !! "A" = Some false /\ envT !! "A" = Some true
  /\ forall env : gmap string bool,
       safeEvaluate tokens env
       = safeEvaluate tokens (if default false (env !! "A") then envT else envF).
Proof.
  apply (truthTable_only_A [OP opNOT; VAR vA]); compute_done.
Defined.


(** * Further properties of the engine *)

(** ** What the converter emits *)

Lemma unparenthesized_cons t stack :
  unparenthesized (t :: stack) =
  if decide (t <> LPAREN /\ t <> RPAREN) then t :: unparenthesized stack
  else unparenthesized stack.
Proof. unfold unparenthesized. by rewrite filter_cons. Qed.

Lemma unparenthesized_snoc l t :
  unparenthesized (l ++ [t]) =
  unparenthesized l ++ if decide (t <> LPAREN /\ t <> RPAREN) then [t] else [].
Proof.
  unfold unparenthesized. rewrite filter_app, filter_cons, filter_nil.
  by case_decide.
Qed.

Lemma operands_snoc l t :
  operands (l ++ [t]) = operands l ++ if isVar t then [t] else [].
Proof.
  unfold operands. rewrite filter_app, filter_cons, filter_nil.
  destruct (isVar t); by case_decide.
Qed.

Lemma converting_pop consumed o stack output :
  converting consumed (OP o :: stack, output) ->
  converting consumed (stack, output ++ [Tok (OP o)]).
Proof.
  unfold converting, held. cbn [fst snd].
  rewrite unparenthesized_cons. case_decide as Hop; [|by destruct Hop].
  intros (Hstack & Hheld & Hvars). apply Forall_cons in Hstack as [_ Hstack].
  repeat split; [done| |].
  - by rewrite <- Hheld, <- app_assoc.
  - rewrite filter_app, filter_cons_False, filter_nil, app_nil_r; done.
Qed.

Lemma converting_drop_marker consumed stack output :
  converting consumed (LPAREN :: stack, output) ->
  converting consumed (stack, output).
Proof.
  unfold converting, held. cbn [fst snd].
  rewrite unparenthesized_cons. case_decide as Hop; [by destruct Hop|].
  intros (Hstack & Hheld & Hvars). by apply Forall_cons in Hstack as [_ Hstack].
Qed.

Lemma popOperators_converting consumed o1 stack output :
  converting consumed (stack, output) ->
  converting consumed (popOperators o1 stack output).
Proof.
  revert output. induction stack as [|top stack IH]; intros output Hinv;
    simpl; [done|].
  destruct top as [v|o2| |]; try done.
  destruct (popsBefore o1 o2); [|done]. by apply IH, converting_pop.
Qed.

Lemma popToLeftParen_converting consumed stack output st' :
  converting consumed (stack, output) ->
  popToLeftParen stack output = Some st' ->
  converting consumed st'.
Proof.
  revert output. induction stack as [|top stack IH]; intros output Hinv;
    simpl; [done|].
  destruct top as [v|o2| |].
  - destruct Hinv as [Hstack _]. by apply Forall_cons in Hstack as [[] _].
  - by apply IH, converting_pop.
  - intros [= <-]. by apply converting_drop_marker.
  - destruct Hinv as [Hstack _]. by apply Forall_cons in Hstack as [[] _].
Qed.

Lemma rpnStep_converting consumed st t st' :
  converting consumed st -> rpnStep st t = inr st' ->
  converting (consumed ++ [t]) st'.
Proof.
  destruct st as [stack output]. intros Hinv.
  destruct t as [v|o1| |]; simpl.
  - intros [= <-]. destruct Hinv as (Hstack & Hheld & Hvars).
    unfold converting, held in *. cbn [fst snd] in *.
    rewrite unparenthesized_snoc, operands_snoc.
    case_decide as Hop; [|by destruct Hop]. simpl.
    rewrite !fmap_app. simpl. repeat split; [done| |].
    + rewrite <- Hheld, <- !app_assoc. apply Permutation_app_head.
      by rewrite <- Permutation_cons_append.
    + rewrite filter_app, filter_cons_True, filter_nil by done. by rewrite Hvars.
  - pose proof (popOperators_converting consumed o1 stack output Hinv) as Hpop.
    destruct (popOperators o1 stack output) as [stack' output'].
    intros [= <-]. destruct Hpop as (Hstack & Hheld & Hvars).
    unfold converting, held in *. cbn [fst snd] in *.
    rewrite unparenthesized_snoc, operands_snoc, unparenthesized_cons.
    case_decide as Hop; [|by destruct Hop]. simpl.
    rewrite app_nil_r, !fmap_app. simpl. repeat split; [by apply Forall_cons|  |done].
    rewrite <- Hheld, <- Permutation_middle.
    by rewrite <- Permutation_cons_append.
  - intros [= <-]. destruct Hinv as (Hstack & Hheld & Hvars).
    unfold converting, held in *. cbn [fst snd] in *.
    rewrite unparenthesized_snoc, operands_snoc, unparenthesized_cons.
    case_decide as Hop; [by destruct Hop|]. simpl.
    rewrite !app_nil_r. repeat split; [by apply Forall_cons|done|done].
  - destruct (popToLeftParen stack output) as [st''|] eqn:Hpop; [|done].
    intros [= <-].
    pose proof (popToLeftParen_converting _ _ _ _ Hinv Hpop)
      as (Hstack & Hheld & Hvars).
    unfold converting. rewrite unparenthesized_snoc, operands_snoc.
    case_decide as Hop; [by destruct Hop|]. simpl.
    by rewrite !app_nil_r.
Qed.

Lemma rpnScan_converting consumed tokens st st' :
  converting consumed st -> rpnScan tokens st = inr st' ->
  converting (consumed ++ tokens) st'.
Proof.
  revert consumed st. induction tokens as [|t tokens IH];
    intros consumed st Hinv; simpl.
  - intros [= <-]. by rewrite app_nil_r.
  - destruct (rpnStep st t) as [e|st''] eqn:Hstep; simpl; [done|].
    intros Hscan.
    replace (consumed ++ t :: tokens) with ((consumed ++ [t]) ++ tokens)
      by (by rewrite <- app_assoc).
    eapply IH; [|done]. by eapply rpnStep_converting.
Qed.

Lemma drainStack_converting consumed stack output rpn :
  converting consumed (stack, output) -> drainStack stack output = inr rpn ->
  converting consumed ([], rpn).
Proof.
  revert output. induction stack as [|top stack IH]; intros output Hinv;
    simpl.
  - by intros [= <-].
  - destruct top as [v|o2| |]; try done.
    + destruct Hinv as [Hstack _]. by apply Forall_cons in Hstack as [[] _].
    + by apply IH, converting_pop.
    + destruct Hinv as [Hstack _]. by apply Forall_cons in Hstack as [[] _].
Qed.

Lemma toRPN_converting tokens rpn :
  toRPN tokens = inr rpn -> converting tokens ([], rpn).
Proof.
  unfold toRPN.
  destruct (rpnScan tokens ([], [])) as [e|[stack output]] eqn:Hscan;
    simpl; [done|].
  apply drainStack_converting.
  apply (rpnScan_converting [] tokens ([], [])); [|done].
  by repeat split.
Qed.

Lemma toRPN_emits tokens rpn :
  toRPN tokens = inr rpn ->
  rpn ≡ₚ Tok <$> unparenthesized tokens
  /\ filter (fun x => isVarItem x = true) rpn = Tok <$> operands tokens
  /\ Forall isPostfixItem rpn.
Proof.
  intros (_ & Hheld & Hvars)%toRPN_converting.
  unfold held in Hheld. cbn in Hheld. rewrite app_nil_r in Hheld.
  repeat split; [done|done|].
  apply Forall_forall. intros x Hx. rewrite Hheld in Hx.
  apply list_elem_of_fmap in Hx as (t & -> & Ht).
  apply list_elem_of_filter in Ht as [[Hl Hr] _]. by destruct t.
Qed.

(** X1: when the converter succeeds, its output holds exactly the
    operands and operators of the sequence, each once (it is a permutation
    of the tokens other than parentheses), with the operands in the order
    they had; no parenthesis and no string ever reaches the output. *)
Theorem toRPN_output (tokens : list Token) (rpn : list RPNItem) :
  toRPN tokens = inr rpn ->
  rpn ≡ₚ Tok <$> unparenthesized tokens
  /\ filter (fun x => isVarItem x = true) rpn = Tok <$> operands tokens
  /\ Forall isPostfixItem rpn
  /\ length rpn = length (unparenthesized tokens).
Proof.
  intros (Hperm & Hvars & Hitems)%toRPN_emits.
  repeat split; [done|done|done|]. by rewrite Hperm, length_fmap.
Qed.

Lemma toRPN_output_witness :
  let tokens := [LPAREN; VAR vA; OP opOR; VAR vB; RPAREN; OP opAND; VAR vC] in
  let rpn := [Tok (VAR vA); Tok (VAR vB); Tok (OP opOR); Tok (VAR vC);
              Tok (OP opAND)] in
  rpn ≡ₚ Tok <$> unparenthesized tokens
  /\ filter (fun x => isVarItem x = true) rpn = Tok <$> operands tokens
  /\ Forall isPostfixItem rpn
  /\ length rpn = length (unparenthesized tokens).
Proof.
  apply (toRPN_output
           [LPAREN; VAR vA; OP opOR; VAR vB; RPAREN; OP opAND; VAR vC]).
  reflexivity.
Defined.


(** ** Which stage an error comes from *)

Lemma checkToken_error prev t next e :
  checkToken prev t next = inl e ->
  isValidityError e = true /\ e <> EmptyExpression.
Proof.
  unfold checkToken.
  repeat (match goal with
          | |- context [if ?b then _ else _] => destruct b
          end; [by intros [= <-]|]).
  done.
Qed.

Lemma checkIndices_error tokens indices e :
  checkIndices tokens indices = inl e ->
  isValidityError e = true /\ e <> EmptyExpression.
Proof.
  induction indices as [|i indices IH]; simpl; [done|].
  destruct (checkAt tokens i) as [e'|[]] eqn:Hat; simpl; [|done].
  intros [= <-]. unfold checkAt in Hat.
  destruct (tokens !! i); [|done]. by eapply checkToken_error.
Qed.

Lemma validityChecks_error tokens e :
  validityChecks tokens = inl e -> isValidityError e = true.
Proof.
  unfold validityChecks. case_bool_decide; [by intros [= <-]|].
  by intros [? _]%checkIndices_error.
Qed.

Lemma evalLoop_error env rpn st e :
  Forall isPostfixItem rpn -> evalLoop env rpn st = inl e ->
  isEvaluationError e = true.
Proof.
  intros Hall. revert st.
  induction Hall as [|t rpn Ht Hall IH]; intros st; simpl; [done|].
  destruct (evalStep env st t) as [e'|st'] eqn:Hstep; simpl; [|apply IH].
  intros [= <-].
  destruct t as [[v|[| |]| |]|]; try done; simpl in Hstep.
  - by destruct v.
  - destruct st as [|b [|a st]]; by simplify_eq.
  - destruct st as [|b [|a st]]; by simplify_eq.
  - destruct st as [|b st]; by simplify_eq.
Qed.

Lemma evalRPN_error env rpn e :
  Forall isPostfixItem rpn -> evalRPN rpn env = inl e ->
  isEvaluationError e = true.
Proof.
  intros Hall. unfold evalRPN.
  destruct (evalLoop env rpn []) as [e'|st] eqn:Hloop; simpl.
  - intros [= <-]. by eapply evalLoop_error.
  - destruct st as [|v [|w st]]; by intros [= <-].
Qed.

Lemma toRPN_balanced tokens rpn : toRPN tokens = inr rpn -> balanced tokens = true.
Proof.
  intros Hrpn. destruct (balanced tokens) eqn:Hbal; [done|].
  apply (convert_fails_unbalanced tokens [] []) in Hbal as [e He].
  change (toRPN tokens = inl e) in He. congruence.
Qed.

(** X2: an error of [safeEvaluate] tells the stage that failed.  An error
    of the validity checks is the outcome of those checks; "Mismatched
    parentheses" means that the checks passed and the parentheses are
    unbalanced; an error of the evaluator means that the checks passed
    and the parentheses are balanced.  "Unknown operator" is never
    reported for a token sequence, although the evaluator alone reports
    it for a string or a parenthesis in its input. *)
Theorem safeEvaluate_error_stage (tokens : list Token)
    (env : gmap string bool) (e : Error) :
  safeEvaluate tokens env = inl e ->
  e <> UnknownOperator
  /\ (isValidityError e = true -> validityChecks tokens = inl e)
  /\ (e = MismatchedParentheses ->
      validityChecks tokens = inr tt /\ balanced tokens = false)
  /\ (isEvaluationError e = true ->
      validityChecks tokens = inr tt /\ balanced tokens = true)
  /\ (forall s, evalRPN [Str s] env = inl UnknownOperator)
  /\ evalRPN [Tok LPAREN] env = inl UnknownOperator.
Proof.
  unfold safeEvaluate.
  destruct (validityChecks tokens) as [e'|[]] eqn:Hvalid; simpl.
  { intros [= <-]. apply validityChecks_error in Hvalid.
    by destruct e'. }
  destruct (toRPN tokens) as [e'|rpn] eqn:Hrpn; simpl.
  { intros [= <-]. pose proof (toRPN_only_mismatched _ _ Hrpn) as ->.
    repeat split; try done.
    apply (convert_fails_unbalanced tokens [] []).
    exists MismatchedParentheses. exact Hrpn. }
  intros Heval.
  pose proof (toRPN_emits _ _ Hrpn) as (_ & _ & Hitems).
  apply evalRPN_error in Heval; [|done].
  apply toRPN_balanced in Hrpn. by destruct e.
Qed.

Lemma safeEvaluate_error_stage_witness :
  let tokens := [OP opNOT; LPAREN; RPAREN] in
  let e := InvalidUnaryPlacement in
  e <> UnknownOperator
  /\ (isValidityError e = true -> validityChecks tokens = inl e)
  /\ (e = MismatchedParentheses ->
      validityChecks tokens = inr tt /\ balanced tokens = false)
  /\ (isEvaluationError e = true ->
      validityChecks tokens = inr tt /\ balanced tokens = true)
  /\ (forall s, evalRPN [Str s] ∅ = inl UnknownOperator)
  /\ evalRPN [Tok LPAREN] ∅ = inl UnknownOperator.
Proof.
  apply (safeEvaluate_error_stage [OP opNOT; LPAREN; RPAREN] ∅
           InvalidUnaryPlacement).
  reflexivity.
Defined.


(** ** The evaluator as a stack machine *)

Lemma evalStep_frame env st t st' base :
  evalStep env st t = inr st' ->
  evalStep env (st ++ base) t = inr (st' ++ base).
Proof.
  destruct t as [[v|[| |]| |]|]; try done; simpl.
  - destruct v; by intros [= <-].
  - destruct st as [|b [|a st]]; try done. by intros [= <-].
  - destruct st as [|b [|a st]]; try done. by intros [= <-].
  - destruct st as [|b st]; try done. by intros [= <-].
Qed.

(** A sequence that evaluates on a stack evaluates alike on a deeper
    one, leaving what lies beneath untouched. *)
Lemma evalLoop_frame env rpn st st' base :
  evalLoop env rpn st = inr st' ->
  evalLoop env rpn (st ++ base) = inr (st' ++ base).
Proof.
  revert st. induction rpn as [|t rpn IH]; intros st; simpl.
  - by intros [= <-].
  - destruct (evalStep env st t) as [e|st''] eqn:Hstep; simpl; [done|].
    rewrite (evalStep_frame _ _ _ _ base Hstep). simpl. apply IH.
Qed.

(** X3: postfix sequences compose.  If [p] evaluates to [a] and [q] to
    [b], then [p q &&] evaluates to [a && b], [p q ||] to [a || b] and
    [p !] to the negation of [a]. *)
Theorem evalRPN_compose (env : gmap string bool) (p q : list RPNItem)
    (a b : bool) :
  evalRPN p env = inr a -> evalRPN q env = inr b ->
  evalRPN (p ++ q ++ [Tok (OP opAND)]) env = inr (a && b)
  /\ evalRPN (p ++ q ++ [Tok (OP opOR)]) env = inr (a || b)
  /\ evalRPN (p ++ [Tok (OP opNOT)]) env = inr (negb a).
Proof.
  intros Hp%evalRPN_inr Hq%evalRPN_inr.
  apply (evalLoop_frame _ _ _ _ [a]) in Hq. simpl in Hq.
  repeat split; apply evalRPN_inr; rewrite evalLoop_app, Hp;
    cbn [bind]; rewrite ?evalLoop_app, ?Hq; reflexivity.
Qed.

Lemma evalRPN_compose_witness :
  evalRPN ([Tok (VAR vTRUE)] ++ [Tok (VAR vFALSE)] ++ [Tok (OP opAND)]) ∅
  = inr (true && false)
  /\ evalRPN ([Tok (VAR vTRUE)] ++ [Tok (VAR vFALSE)] ++ [Tok (OP opOR)]) ∅
     = inr (true || false)
  /\ evalRPN ([Tok (VAR vTRUE)] ++ [Tok (OP opNOT)]) ∅ = inr (negb true).
Proof.
  apply (evalRPN_compose ∅ [Tok (VAR vTRUE)] [Tok (VAR vFALSE)] true false);
    reflexivity.
Defined.

Lemma evalLoop_postfix env e st :
  evalLoop env (postfix e) st = inr (denote env e :: st).
Proof.
  revert st. induction e as [v|e IH|l IHl r IHr|l IHl r IHr|e IH];
    intros st; simpl.
  - by destruct v.
  - by rewrite evalLoop_app, IH.
  - rewrite evalLoop_app, IHl. cbn [bind]. by rewrite evalLoop_app, IHr.
  - rewrite evalLoop_app, IHl. cbn [bind]. by rewrite evalLoop_app, IHr.
  - apply IH.
Qed.

(** X4: the evaluator computes the value of every expression tree from
    its postfix form, whatever lies on the stack beneath. *)
Theorem evalRPN_postfix (env : gmap string bool) (e : Expr) :
  evalRPN (postfix e) env = inr (denote env e)
  /\ forall st, evalLoop env (postfix e) st = inr (denote env e :: st).
Proof.
  split; [|apply evalLoop_postfix].
  unfold evalRPN. by rewrite evalLoop_postfix.
Qed.

(** The height of the stack: an operand adds one value, a binary
    operator takes one away, [!] leaves the height as it is. *)
Lemma evalStep_height env st t st' :
  evalStep env st t = inr st' ->
  length st' + (if isBinaryItem t then 1 else 0)
  = length st + (if isVarItem t then 1 else 0).
Proof.
  destruct t as [[v|[| |]| |]|]; try done; simpl.
  - destruct v; intros [= <-]; simpl; lia.
  - destruct st as [|b [|a st]]; try done. intros [= <-]. simpl. lia.
  - destruct st as [|b [|a st]]; try done. intros [= <-]. simpl. lia.
  - destruct st as [|b st]; try done. intros [= <-]. simpl. lia.
Qed.

Lemma evalLoop_height env rpn st st' :
  evalLoop env rpn st = inr st' ->
  length st' + length (filter (fun x => isBinaryItem x = true) rpn)
  = length st + length (filter (fun x => isVarItem x = true) rpn).
Proof.
  revert st. induction rpn as [|t rpn IH]; intros st; simpl.
  - intros [= <-]. lia.
  - destruct (evalStep env st t) as [e|st''] eqn:Hstep; simpl; [done|].
    intros Hloop. apply IH in Hloop. apply evalStep_height in Hstep.
    rewrite !filter_cons.
    destruct (isBinaryItem t), (isVarItem t); repeat case_decide;
      try done; simpl; lia.
Qed.

Lemma binary_items_of_tokens tokens :
  length (filter (fun x => isBinaryItem x = true)
            (Tok <$> unparenthesized tokens))
  = length (binaryOperators tokens).
Proof.
  unfold binaryOperators, unparenthesized.
  induction tokens as [|t tokens IH]; [done|].
  destruct t as [v|[| |]| |].
  - rewrite filter_cons_True, fmap_cons by done.
    by rewrite !filter_cons_False by done.
  - rewrite filter_cons_True, fmap_cons by done.
    rewrite !filter_cons_True by done. simpl. by rewrite IH.
  - rewrite filter_cons_True, fmap_cons by done.
    rewrite !filter_cons_True by done. simpl. by rewrite IH.
  - rewrite filter_cons_True, fmap_cons by done.
    by rewrite !filter_cons_False by done.
  - rewrite (filter_cons_False (fun t => t <> LPAREN /\ t <> RPAREN))
      by (by intros [? _]).
    by rewrite filter_cons_False by done.
  - rewrite (filter_cons_False (fun t => t <> LPAREN /\ t <> RPAREN))
      by (by intros [_ ?]).
    by rewrite filter_cons_False by done.
Qed.

(** X5: an expression that evaluates has balanced parentheses and exactly
    one more operand than it has binary operators. *)
Theorem safeEvaluate_operand_count (tokens : list Token)
    (env : gmap string bool) (val : bool) :
  safeEvaluate tokens env = inr val ->
  length (operands tokens) = S (length (binaryOperators tokens))
  /\ balanced tokens = true.
Proof.
  unfold safeEvaluate.
  destruct (validityChecks tokens) as [e|[]]; simpl; [done|].
  destruct (toRPN tokens) as [e|rpn] eqn:Hrpn; simpl; [done|].
  intros Heval%evalRPN_inr%evalLoop_height. simpl in Heval.
  pose proof (toRPN_emits _ _ Hrpn) as (Hperm & Hvars & _).
  split; [|by eapply toRPN_balanced].
  rewrite Hvars, length_fmap in Heval.
  rewrite Hperm, binary_items_of_tokens in Heval. lia.
Qed.

Lemma safeEvaluate_operand_count_witness :
  let tokens := [VAR vA; OP opAND; OP opNOT; LPAREN; VAR vB; RPAREN] in
  length (operands tokens) = S (length (binaryOperators tokens))
  /\ balanced tokens = true.
Proof.
  apply (safeEvaluate_operand_count
           [VAR vA; OP opAND; OP opNOT; LPAREN; VAR vB; RPAREN] ∅ false).
  reflexivity.
Defined.


(** ** The converter on the renderings of expression trees *)

Lemma popOperators_flush o1 pending stack output :
  Forall (fun o => popsBefore o1 o = true) pending ->
  match stack with
  | OP o2 :: _ => popsBefore o1 o2 = false
  | _ => True
  end ->
  popOperators o1 ((OP <$> pending) ++ stack) output
  = (stack, output ++ (Tok ∘ OP <$> pending)).
Proof.
  intros Hpending Hstack. revert output.
  induction Hpending as [|o pending Ho Hpending IH]; intros output; simpl.
  - rewrite app_nil_r. destruct stack as [|[v|o2| |] stack]; try done.
    simpl. by rewrite Hstack.
  - rewrite Ho, IH. by rewrite <- app_assoc.
Qed.

Lemma popToLeftParen_flush pending stack output :
  popToLeftParen ((OP <$> pending) ++ LPAREN :: stack) output
  = Some (stack, output ++ (Tok ∘ OP <$> pending)).
Proof.
  revert output. induction pending as [|o pending IH]; intros output; simpl.
  - by rewrite app_nil_r.
  - rewrite IH. by rewrite <- app_assoc.
Qed.

Lemma drainStack_flush pending output :
  drainStack (OP <$> pending) output
  = inr (output ++ (Tok ∘ OP <$> pending)).
Proof.
  revert output. induction pending as [|o pending IH]; intros output; simpl.
  - by rewrite app_nil_r.
  - rewrite IH. by rewrite <- app_assoc.
Qed.

Lemma scansTo_weaken ctx ctx' body pf :
  (ctx' <= ctx)%Z -> scansTo ctx body pf -> scansTo ctx' body pf.
Proof.
  intros Hle Hscan stack output Hguard.
  destruct (Hscan stack output) as (pending & output' & Hrun & Hout & Hall).
  - destruct stack as [|[v|o2| |] stack]; try done. simpl in *.
    intros o1 Ho1. apply Hguard. lia.
  - exists pending, output'. repeat split; [done|done|].
    eapply Forall_impl; [exact Hall|]. simpl. intros o Ho. lia.
Qed.

Lemma scansTo_parenthesized ctx ctx' body pf :
  scansTo ctx body pf -> scansTo ctx' (parenthesized body) pf.
Proof.
  intros Hscan stack output _.
  destruct (Hscan (LPAREN :: stack) output) as (pending & output' & Hrun & Hout & _);
    [done|].
  exists [], (output ++ pf). split; [|split; [apply app_nil_r|done]].
  unfold parenthesized. cbn [rpnScan rpnStep bind].
  rewrite rpnScan_app, Hrun. cbn [bind rpnScan rpnStep].
  by rewrite popToLeftParen_flush, Hout.
Qed.

Lemma scansTo_binary o l r pl pr :
  rightAssociative o = false ->
  scansTo (precedence o) l pl ->
  scansTo (precedence o + 1) r pr ->
  scansTo (precedence o) (l ++ OP o :: r) (pl ++ pr ++ [Tok (OP o)]).
Proof.
  intros Hleft Hl Hr stack output Hguard.
  destruct (Hl stack output Hguard) as (pendl & outl & Hrunl & Houtl & Halll).
  destruct (Hr (OP o :: stack) (output ++ pl))
    as (pendr & outr & Hrunr & Houtr & Hallr).
  { simpl. intros o1 Ho1. unfold popsBefore.
    destruct (rightAssociative o1); simpl.
    - rewrite orb_false_r. apply Z.ltb_ge. lia.
    - apply Z.leb_gt. lia. }
  exists (pendr ++ [o]), outr. repeat split.
  - rewrite rpnScan_app, Hrunl. cbn [bind rpnScan rpnStep].
    rewrite popOperators_flush.
    + rewrite Houtl. cbn [bind]. rewrite Hrunr.
      by rewrite fmap_app, <- app_assoc.
    + eapply Forall_impl; [exact Halll|]. simpl. intros o2 Ho2.
      unfold popsBefore. rewrite Hleft. simpl. by apply Z.leb_le.
    + destruct stack as [|[v|o2| |] stack]; try done. simpl in Hguard.
      apply Hguard. lia.
  - rewrite fmap_app, app_assoc, Houtr. simpl. by rewrite <- !app_assoc.
  - apply Forall_app. split.
    + eapply Forall_impl; [exact Hallr|]. simpl. intros o2 Ho2. lia.
    + apply Forall_singleton. lia.
Qed.

Lemma render_scansTo e : forall ctx, scansTo ctx (render ctx e) (postfix e).
Proof.
  assert (forall e body,
            scansTo (level e) body (postfix e) ->
            forall ctx,
              scansTo ctx (if (level e <? ctx)%Z then parenthesized body
                           else body) (postfix e)) as Hwrap.
  { intros e' body Hbody ctx. destruct (Z.ltb_spec (level e') ctx).
    - by eapply scansTo_parenthesized.
    - by eapply scansTo_weaken. }
  induction e as [v|e IH|l IHl r IHr|l IHl r IHr|e IH]; intros ctx;
    cbn [render]; apply Hwrap; cbn [level postfix].
  - intros stack output _. exists [], (output ++ [Tok (VAR v)]).
    split; [done|split; [apply app_nil_r|done]].
  - intros stack output _.
    destruct (IH 3%Z (OP opNOT :: stack) output)
      as (pending & output' & Hrun & Hout & Hall).
    { simpl. intros [| |] Ho1; simpl in Ho1; try lia. done. }
    exists (pending ++ [opNOT]), output'. repeat split.
    + cbn [rpnScan rpnStep bind].
      assert (popOperators opNOT stack output = (stack, output)) as ->.
      { destruct stack as [|[v|[| |]| |] stack]; done. }
      cbn [bind]. rewrite Hrun. by rewrite fmap_app, <- app_assoc.
    + rewrite fmap_app, app_assoc, Hout. by rewrite <- app_assoc.
    + apply Forall_app. split; [done|]. by apply Forall_singleton.
  - apply (scansTo_binary opAND); [done|apply IHl|apply IHr].
  - apply (scansTo_binary opOR); [done|apply IHl|apply IHr].
  - eapply scansTo_parenthesized, IH.
Qed.

(** X6: the converter implements the precedence and the associativity of
    the operators.  For every expression tree, written with the
    parentheses that precedence ([!] over [&&] over [||]) and left
    associativity require, and with any pair the user adds, the converter
    succeeds and yields the postfix form of the tree. *)
Theorem toRPN_render (ctx : Z) (e : Expr) :
  toRPN (render ctx e) = inr (postfix e).
Proof.
  unfold toRPN.
  destruct (render_scansTo e ctx [] []) as (pending & output & Hrun & Hout & _);
    [done|].
  rewrite Hrun. cbn [bind]. rewrite app_nil_r, drainStack_flush.
  by rewrite Hout.
Qed.


(** ** The validity checks on the renderings of expression trees *)

Lemma tokenBefore_app pre l : tokenBefore (pre ++ l) (length pre) = last pre.
Proof.
  destruct pre as [|x pre _] using rev_ind; [done|].
  rewrite last_snoc, length_app, Nat.add_1_r. simpl.
  rewrite <- app_assoc. by apply list_lookup_middle.
Qed.

Lemma lookup_after pre (t : Token) rest :
  (pre ++ t :: rest) !! S (length pre) = head rest.
Proof.
  rewrite lookup_app_r by lia.
  replace (S (length pre) - length pre) with 1 by lia. by destruct rest.
Qed.

(** The loop over the indices is a left-to-right pass that carries the
    previous token along. *)
Lemma checkIndices_checksIn pre l :
  checkIndices (pre ++ l) (seq (length pre) (length l))
  = checksIn (last pre) l None.
Proof.
  revert pre. induction l as [|t rest IH]; intros pre; [done|].
  cbn [length seq checkIndices checksIn]. unfold checkAt.
  rewrite list_lookup_middle by done.
  rewrite tokenBefore_app, lookup_after.
  replace (from_option Some None (head rest)) with (head rest)
    by by destruct rest.
  destruct (checkToken (last pre) t (head rest)); [done|]. cbn [bind].
  specialize (IH (pre ++ [t])).
  rewrite <- app_assoc, length_app, Nat.add_1_r, last_snoc in IH. apply IH.
Qed.

Lemma validityChecks_checksIn tokens :
  tokens <> [] -> validityChecks tokens = checksIn None tokens None.
Proof.
  intros Hne. unfold validityChecks. case_bool_decide as Hlen.
  - by apply nil_length_inv in Hlen.
  - apply (checkIndices_checksIn [] tokens).
Qed.

Lemma checksIn_app prev l1 l2 next :
  checksIn prev (l1 ++ l2) next =
  attempt _ := checksIn prev l1 (from_option Some next (head l2)) in
  checksIn (from_option Some prev (last l1)) l2 next.
Proof.
  revert prev. induction l1 as [|t l1 IH]; intros prev; [done|].
  cbn [app checksIn].
  replace (from_option Some next (head (l1 ++ l2)))
    with (from_option Some (from_option Some next (head l2)) (head l1))
    by by destruct l1.
  destruct (checkToken prev t _); [done|]. cbn [bind].
  rewrite IH, last_cons. by destruct (last l1).
Qed.


Lemma render_opens ctx e :
  exists t rest, render ctx e = t :: rest /\ opens t = true.
Proof.
  revert ctx. induction e as [v|e IH|l IHl r IHr|l IHl r IHr|e IH];
    intros ctx; cbn [render]; destruct (_ <? ctx)%Z;
    try (by eexists _, _).
  - destruct (IHl 2%Z) as (t & rest & -> & Ht). by eexists _, _.
  - destruct (IHl 1%Z) as (t & rest & -> & Ht). by eexists _, _.
Qed.

Lemma render_closes ctx e :
  exists init t, render ctx e = init ++ [t] /\ closes t = true.
Proof.
  revert ctx. induction e as [v|e IH|l IHl r IHr|l IHl r IHr|e IH];
    intros ctx; cbn [render]; destruct (_ <? ctx)%Z;
    try (by eexists (LPAREN :: _), RPAREN).
  - by exists [], (VAR v).
  - destruct (IH 3%Z) as (init & t & -> & Ht). by exists (OP opNOT :: init), t.
  - destruct (IHr 3%Z) as (init & t & -> & Ht).
    exists (render 2 l ++ OP opAND :: init), t. by rewrite <- app_assoc.
  - destruct (IHr 2%Z) as (init & t & -> & Ht).
    exists (render 1 l ++ OP opOR :: init), t. by rewrite <- app_assoc.
Qed.

Lemma validIn_parenthesized body : validIn body -> validIn (parenthesized body).
Proof.
  intros Hbody prev next Hnext. unfold parenthesized.
  cbn [checksIn]. rewrite checksIn_app, Hbody by done.
  cbn [bind checksIn head from_option]. unfold checkToken. simpl.
  by rewrite Hnext.
Qed.

Lemma validIn_binary o l r :
  isBinaryOp (OP o) = true ->
  validIn l -> validIn r ->
  (exists init t, l = init ++ [t] /\ closes t = true) ->
  (exists t rest, r = t :: rest /\ opens t = true) ->
  validIn (l ++ OP o :: r).
Proof.
  intros Ho Hl Hr (init & tl & -> & Htl) (tr & rest & -> & Htr) prev next Hnext.
  rewrite checksIn_app, Hl by by destruct o.
  rewrite last_snoc. cbn [bind from_option checksIn head].
  assert (checkToken (Some tl) (OP o) (Some tr) = inr tt) as ->.
  { destruct o; try done; by destruct tl. }
  cbn [bind]. by apply (Hr (Some (OP o)) next).
Qed.

Lemma render_validIn e : forall ctx, validIn (render ctx e).
Proof.
  assert (forall e body ctx,
            validIn body ->
            validIn (if (level e <? ctx)%Z then parenthesized body else body))
    as Hwrap.
  { intros e' body ctx Hbody. destruct (_ <? ctx)%Z; [|done].
    by apply validIn_parenthesized. }
  induction e as [v|e IH|l IHl r IHr|l IHl r IHr|e IH]; intros ctx;
    cbn [render]; apply Hwrap.
  - intros prev next Hnext. cbn [checksIn head from_option].
    unfold checkToken. simpl. by rewrite Hnext.
  - intros prev next Hnext.
    destruct (render_opens 3 e) as (t & rest & Heq & Ht).
    cbn [checksIn]. rewrite Heq. cbn [head from_option].
    assert (checkToken prev (OP opNOT) (Some t) = inr tt) as ->
      by by destruct t as [v|[| |]| |].
    cbn [bind]. rewrite <- Heq. by apply IH.
  - apply validIn_binary;
      [done|apply IHl|apply IHr|apply render_closes|apply render_opens].
  - apply validIn_binary;
      [done|apply IHl|apply IHr|apply render_closes|apply render_opens].
  - apply validIn_parenthesized, IH.
Qed.

Lemma render_nonempty ctx e : render ctx e <> [].
Proof. by destruct (render_opens ctx e) as (t & rest & -> & _). Qed.

Lemma render_evaluates ctx e env :
  validityChecks (render ctx e) = inr tt
  /\ safeEvaluate (render ctx e) env = inr (denote env e).
Proof.
  assert (validityChecks (render ctx e) = inr tt) as Hvalid.
  { rewrite validityChecks_checksIn by apply render_nonempty.
    by apply render_validIn. }
  split; [done|]. unfold safeEvaluate. rewrite Hvalid. cbn [bind].
  assert (toRPN (render ctx e) = inr (postfix e)) as ->.
  { unfold toRPN.
    destruct (render_scansTo e ctx [] [])
      as (pending & output & Hrun & Hout & _); [done|].
    rewrite Hrun. cbn [bind]. rewrite app_nil_r, drainStack_flush.
    by rewrite Hout. }
  cbn [bind]. unfold evalRPN. by rewrite evalLoop_postfix.
Qed.

(** X7: the engine is correct on every well-formed expression.  For every
    expression tree, the token sequence that writes it down with the
    parentheses precedence and left associativity require passes the
    validity checks and evaluates, under every environment, to the value
    of the tree. *)
Theorem safeEvaluate_render (ctx : Z) (e : Expr) (env : gmap string bool) :
  validityChecks (render ctx e) = inr tt
  /\ safeEvaluate (render ctx e) env = inr (denote env e).
Proof. apply render_evaluates. Qed.

(** The three expressions of the precedence rules, as renderings. *)
Example render_or_and :
  render 1 (EOr (EVar vA) (EAnd (EVar vB) (EVar vC)))
  = [VAR vA; OP opOR; VAR vB; OP opAND; VAR vC].
Proof. reflexivity. Qed.

Example render_and_or :
  render 1 (EAnd (EOr (EVar vA) (EVar vB)) (EVar vC))
  = [LPAREN; VAR vA; OP opOR; VAR vB; RPAREN; OP opAND; VAR vC].
Proof. reflexivity. Qed.

Example render_right_nested :
  render 1 (EAnd (EVar vA) (EAnd (ENot (ENot (EVar vB))) (EVar vC)))
  = [VAR vA; OP opAND; LPAREN; OP opNOT; OP opNOT; VAR vB; OP opAND; VAR vC;
     RPAREN].
Proof. reflexivity. Qed.


(** ** What the validity checks accept *)

Lemma checkAt_passes tokens i :
  checkAt tokens i = inr tt <->
  adjacentOperandsAt tokens i = false /\ operatorFaultAt tokens i = false.
Proof.
  split.
  - intros Hpass. split.
    + destruct (adjacentOperandsAt tokens i) eqn:Hadj; [|done].
      apply checkAt_adjacent in Hadj as (e & He & _). congruence.
    + destruct (operatorFaultAt tokens i) eqn:Hfault; [|done].
      apply checkAt_fault in Hfault as (e & He). congruence.
  - intros [Hadj Hfault].
    destruct (checkAt tokens i) as [e|[]] eqn:Hat; [|done].
    destruct (isMissingOperator e) eqn:Hkind.
    + apply (checkAt_missing _ _ _ Hat) in Hkind. congruence.
    + apply (checkAt_other _ _ _ Hat) in Hkind. congruence.
Qed.

Lemma checkIndices_passes tokens a n :
  checkIndices tokens (seq a n) = inr tt <->
  forall i, a <= i < a + n -> checkAt tokens i = inr tt.
Proof.
  revert a. induction n as [|n IH]; intros a; simpl.
  - split; [intros _ i Hi; lia|done].
  - destruct (checkAt tokens a) as [e|[]] eqn:Ha; simpl.
    + split; [done|]. intros Hall. specialize (Hall a). rewrite Ha in Hall.
      discriminate Hall. lia.
    + rewrite IH. split; intros Hall i Hi.
      * destruct (decide (i = a)) as [->|Hne]; [done|]. apply Hall. lia.
      * apply Hall. lia.
Qed.

Lemma checkAt_beyond tokens i : length tokens <= i -> checkAt tokens i = inr tt.
Proof. intros Hi. unfold checkAt. by rewrite lookup_ge_None_2. Qed.

Lemma validityChecks_passes tokens :
  validityChecks tokens = inr tt <->
  tokens <> []
  /\ forall i, adjacentOperandsAt tokens i = false
               /\ operatorFaultAt tokens i = false.
Proof.
  unfold validityChecks. case_bool_decide as Hlen.
  - apply nil_length_inv in Hlen as ->. split; [done|by intros [? _]].
  - rewrite checkIndices_passes. split.
    + intros Hall. split; [by intros ->|]. intros i. apply checkAt_passes.
      destruct (decide (i < length tokens)); [apply Hall; lia|].
      apply checkAt_beyond. lia.
    + intros [_ Hall] i _. by apply checkAt_passes.
Qed.

(** X8: the validity checks accept exactly the sequences that are not
    empty, in which no variable or [)] is immediately followed by a
    variable or [(], and in which no operator is misplaced. *)
Theorem validityChecks_accepts (tokens : list Token) :
  validityChecks tokens = inr tt <->
  tokens <> []
  /\ forall i, adjacentOperandsAt tokens i = false
               /\ operatorFaultAt tokens i = false.
Proof. apply validityChecks_passes. Qed.

Lemma operatorFaultAt_lt tokens j :
  operatorFaultAt tokens j = true -> j < length tokens.
Proof.
  unfold operatorFaultAt. intros H. apply lookup_lt_is_Some.
  destruct (tokens !! j); [eauto|done].
Qed.

Lemma checkIndices_reports_operator tokens n a j :
  a <= j < a + n ->
  operatorFaultAt tokens j = true ->
  (forall i, a <= i < j -> adjacentOperandsAt tokens i = false) ->
  exists e, checkIndices tokens (seq a n) = inl e
            /\ isOperatorError e = true.
Proof.
  revert a. induction n as [|n IH]; intros a Hj Hfault Hbefore; [lia|]. simpl.
  destruct (checkAt tokens a) as [e|[]] eqn:Ha; simpl.
  - exists e. split; [done|].
    destruct (isMissingOperator e) eqn:Hkind.
    + apply (checkAt_missing _ _ _ Ha) in Hkind.
      destruct (decide (a = j)) as [->|Hne].
      * unfold operatorFaultAt, adjacentOperandsAt in *.
        destruct (tokens !! j) as [[v|[| |]| |]|]; done.
      * rewrite Hbefore in Hkind by lia. done.
    + unfold checkAt in Ha. destruct (tokens !! a); [|done].
      apply checkToken_error in Ha as [Hvalid Hne]. by destruct e.
  - apply IH; [|done|intros i Hi; apply Hbefore; lia].
    destruct (decide (a = j)) as [->|Hne]; [|lia].
    apply checkAt_fault in Hfault as (e' & He'). congruence.
Qed.

(** X9: the validity checks report a misplaced operator (one of the
    three errors on operator placement) exactly when some operator is
    misplaced and no variable or [)] before it is immediately followed by
    a variable or [(]; and then no missing operator is reported: the
    first offending position decides. *)
Theorem validityChecks_operator_error (tokens : list Token) :
  (exists e, validityChecks tokens = inl e /\ isOperatorError e = true)
  <-> exists j, operatorFaultAt tokens j = true
                /\ forall i, i < j -> adjacentOperandsAt tokens i = false.
Proof.
  unfold validityChecks. case_bool_decide as Hlen.
  - split; [by intros (e & [= <-] & ?)|]. intros (j & Hfault & _).
    apply operatorFaultAt_lt in Hfault. lia.
  - split.
    + intros (e & He & Hkind).
      apply checkIndices_fails in He as (j & Hj & He & Hbefore).
      exists j. split.
      * apply (checkAt_other _ _ _ He). by destruct e.
      * intros i Hi. specialize (Hbefore i).
        apply checkAt_passes in Hbefore; [tauto|lia].
    + intros (j & Hfault & Hbefore).
      apply (checkIndices_reports_operator tokens (length tokens) 0 j);
        [|done|intros i Hi; apply Hbefore; lia].
      apply operatorFaultAt_lt in Hfault. lia.
Qed.

(** X10: the error at the two ends.  Only the empty sequence is reported
    as empty; a sequence that starts with a binary operator always fails
    with "Binary operator needs operands on both sides", whatever
    follows; a sequence that ends with a binary operator never passes the
    validity checks. *)
Theorem safeEvaluate_ends (tokens : list Token) (o : OpName)
    (env : gmap string bool) :
  o <> opNOT ->
  (safeEvaluate tokens env = inl EmptyExpression <-> tokens = [])
  /\ safeEvaluate (OP o :: tokens) env = inl BinaryNeedsOperands
  /\ exists e, safeEvaluate (tokens ++ [OP o]) env = inl e
               /\ isValidityError e = true.
Proof.
  intros Ho. split; [|split].
  - split; [|by intros ->].
    unfold safeEvaluate, validityChecks. case_bool_decide as Hlen.
    { intros _. by apply nil_length_inv. }
    destruct (checkIndices tokens _) as [e|[]] eqn:Hchecks; simpl.
    { intros [= ->]. by apply checkIndices_error in Hchecks as [_ ?]. }
    destruct (toRPN tokens) as [e|rpn] eqn:Hrpn; simpl.
    { intros [= ->]. by apply toRPN_only_mismatched in Hrpn. }
    intros Heval. apply toRPN_emits in Hrpn as (_ & _ & Hitems).
    by apply evalRPN_error in Heval.
  - unfold safeEvaluate, validityChecks. simpl.
    unfold checkAt. simpl. by destruct o.
  - unfold safeEvaluate.
    destruct (validityChecks (tokens ++ [OP o])) as [e|[]] eqn:Hvalid; simpl.
    { exists e. split; [done|]. by eapply validityChecks_error. }
    apply validityChecks_passes in Hvalid as [_ Hall].
    destruct (Hall (length tokens)) as [_ Hfault].
    unfold operatorFaultAt in Hfault.
    rewrite list_lookup_middle in Hfault by done.
    rewrite lookup_after in Hfault. simpl in Hfault.
    destruct o; try done; (destruct (length tokens); [done|]);
      by destruct (_ !! _) as [[]|].
Qed.

Lemma safeEvaluate_ends_witness :
  (safeEvaluate [VAR vA] ∅ = inl EmptyExpression <-> [VAR vA] = [])
  /\ safeEvaluate (OP opOR :: [VAR vA]) ∅ = inl BinaryNeedsOperands
  /\ exists e, safeEvaluate ([VAR vA] ++ [OP opOR]) ∅ = inl e
               /\ isValidityError e = true.
Proof. apply (safeEvaluate_ends [VAR vA] opOR ∅). discriminate. Defined.


(** ** The rows of the truth table *)

Lemma usedVars_subset tokens v :
  v ∈ usedVars tokens -> v ∈ ["A"; "B"; "C"].
Proof.
  rewrite usedVars_freeVars. intros (w & -> & Hw)%list_elem_of_fmap.
  apply list_elem_of_filter in Hw as [_ Hw].
  apply list_elem_of_In in Hw. apply list_elem_of_In. simpl in *.
  destruct Hw as [<-|[<-|[<-|[]]]]; auto.
Qed.

Lemma elem_of_usedVars tokens v :
  v ∈ [vA; vB; vC] -> varKey v ∈ usedVars tokens <-> VAR v ∈ tokens.
Proof.
  intros Hv. rewrite usedVars_freeVars, (list_elem_of_fmap_inj varKey).
  unfold freeVars. rewrite list_elem_of_filter. tauto.
Qed.

Lemma assignBits_dom n mask vars i m :
  dom (assignBits n mask i vars m) = dom m ∪ list_to_set vars.
Proof.
  revert i m. induction vars as [|v vars IH]; intros i m; simpl.
  - set_solver.
  - rewrite IH, dom_insert_L. set_solver.
Qed.

Lemma rowFor_mask tokens mask :
  mask < length (truthTable true tokens) ->
  (0 <= Z.of_nat mask < 2 ^ Z.of_nat (length (usedVars tokens)))%Z
  /\ (2 ^ Z.of_nat (length (usedVars tokens)) <= 8)%Z.
Proof.
  rewrite truthTable_length. case_decide; [lia|]. intros Hmask.
  pose proof (length_usedVars_le tokens) as Hle.
  rewrite <- (Nat2Z.inj_pow 2). split; [lia|].
  change 8%Z with (2 ^ 3)%Z. rewrite Nat2Z.inj_pow.
  apply Z.pow_le_mono_r; lia.
Qed.

(** X11: row number [mask] of the table gives the variable at position
    [j] of the used variables bit [n - 1 - j] of [mask] (the first
    variable reads the most significant bit); the variables among [A],
    [B], [C] that are not used are false; every row binds exactly [A],
    [B] and [C]; and its result is the outcome of the expression under
    the row's own assignment. *)
Theorem truthTable_row_bits (tokens : list Token) (mask : nat) (row : Row) :
  truthTable true tokens !! mask = Some row ->
  (forall j v, usedVars tokens !! j = Some v ->
     assignment row !! v
     = Some (Z.testbit (Z.of_nat mask)
               (Z.of_nat (length (usedVars tokens)) - 1 - Z.of_nat j)))
  /\ (forall v, v ∈ ["A"; "B"; "C"] -> v ∉ usedVars tokens ->
     assignment row !! v = Some false)
  /\ dom (assignment row) = {["A"; "B"; "C"]}
  /\ RESULT row = resultCell (safeEvaluate tokens (assignment row)).
Proof.
  intros Hrow. apply lookup_lt_Some in Hrow as Hlt.
  rewrite truthTable_lookup in Hrow by done. simplify_eq.
  destruct (rowFor_mask tokens mask Hlt) as [Hmask Hpow].
  pose proof (length_usedVars_le tokens) as Hle.
  repeat split.
  - intros j v Hj. simpl.
    apply assignmentOf_lookup; [apply usedVars_NoDup|lia|lia|done].
  - intros v Hv Hnot. simpl. rewrite assignmentOf_other by done.
    apply list_elem_of_In in Hv. simpl in Hv.
    by destruct Hv as [<-|[<-|[<-|[]]]].
  - simpl. unfold assignmentOf. rewrite assignBits_dom.
    assert (dom initialAssignment = ({["A"; "B"; "C"]} : gset string)) as ->
      by (unfold initialAssignment; rewrite !dom_insert_L; set_solver).
    pose proof (usedVars_subset tokens) as Hsub.
    apply set_eq. intros v. rewrite elem_of_union, elem_of_list_to_set.
    split; [intros [?|Hv%Hsub]; [done|]|by left].
    apply list_elem_of_In in Hv. simpl in Hv.
    destruct Hv as [<-|[<-|[<-|[]]]]; set_solver.
Qed.

Lemma truthTable_row_bits_witness :
  let tokens := [VAR vC; OP opAND; VAR vA] in
  let row := rowFor tokens ["A"; "C"] 2 in
  (forall j v, usedVars tokens !! j = Some v ->
     assignment row !! v
     = Some (Z.testbit (Z.of_nat 2)
               (Z.of_nat (length (usedVars tokens)) - 1 - Z.of_nat j)))
  /\ (forall v, v ∈ ["A"; "B"; "C"] -> v ∉ usedVars tokens ->
     assignment row !! v = Some false)
  /\ dom (assignment row) = {["A"; "B"; "C"]}
  /\ RESULT row = resultCell (safeEvaluate tokens (assignment row)).
Proof.
  apply (truthTable_row_bits [VAR vC; OP opAND; VAR vA] 2). reflexivity.
Defined.

(** A mask for every choice of values. *)
Lemma mask_exists (vars : list string) (f : string -> bool) :
  exists mask,
    (0 <= mask < 2 ^ Z.of_nat (length vars))%Z
    /\ forall j v, vars !! j = Some v ->
         Z.testbit mask (Z.of_nat (length vars) - 1 - Z.of_nat j) = f v.
Proof.
  induction vars as [|v vars (mask & Hmask & Hbits)].
  - exists 0%Z. split; [simpl; lia|done].
  - set (n := Z.of_nat (length vars)) in *.
    assert (0 < 2 ^ n)%Z as Hpos by (apply Z.pow_pos_nonneg; lia).
    exists (mask + Z.b2z (f v) * 2 ^ n)%Z. split.
    + replace (Z.of_nat (length (v :: vars))) with (n + 1)%Z by (simpl; lia).
      rewrite Z.pow_add_r by lia. destruct (f v); simpl; lia.
    + intros j w Hj.
      replace (Z.of_nat (length (v :: vars))) with (n + 1)%Z by (simpl; lia).
      destruct j as [|j]; simpl in Hj.
      * simplify_eq. replace (n + 1 - 1 - Z.of_nat 0)%Z with (0 + n)%Z by lia.
        rewrite <- Z.div_pow2_bits by lia.
        rewrite Z.div_add, Z.div_small by lia. apply Z.b2z_bit0.
      * apply lookup_lt_Some in Hj as Hlt.
        replace (n + 1 - 1 - Z.of_nat (S j))%Z
          with (n - 1 - Z.of_nat j)%Z by lia.
        rewrite <- (Hbits j w Hj).
        rewrite <- (Z.mod_pow2_bits_low _ n) by lia.
        by rewrite Z.mod_add, Z.mod_small by lia.
Qed.

(** X12: the table is complete.  When some variable is used, every
    environment is matched by a row: one that gives each used variable
    the value the environment gives it (false when it binds none) and
    whose result is the outcome of the expression under that
    environment. *)
Theorem truthTable_complete (tokens : list Token) (env : gmap string bool) :
  usedVars tokens <> [] ->
  exists row,
    row ∈ truthTable true tokens
    /\ (forall v, v ∈ usedVars tokens ->
        assignment row !! v = Some (default false (env !! v)))
    /\ RESULT row = resultCell (safeEvaluate tokens env).
Proof.
  intros Hused.
  destruct (mask_exists (usedVars tokens) (fun v => default false (env !! v)))
    as (mask & Hmask & Hbits).
  pose proof (length_usedVars_le tokens) as Hle.
  assert (2 ^ Z.of_nat (length (usedVars tokens)) <= 2 ^ 3)%Z as Hpow
    by (apply Z.pow_le_mono_r; lia).
  assert (forall v, v ∈ usedVars tokens ->
            assignmentOf (usedVars tokens) mask !! v
            = Some (default false (env !! v))) as Hrow.
  { intros v [j Hj]%list_elem_of_lookup.
    rewrite (assignmentOf_lookup _ _ j v);
      [|apply usedVars_NoDup|lia|lia|done].
    by rewrite (Hbits j v Hj). }
  exists (rowFor tokens (usedVars tokens) mask). repeat split.
  - rewrite truthTable_shown. case_decide; [done|].
    apply list_elem_of_fmap_2, elem_of_seqZ. lia.
  - done.
  - simpl. f_equal. apply safeEvaluate_agree. intros v Hv.
    destruct (decide (v ∈ [vA; vB; vC])) as [Habc|Habc].
    + apply (elem_of_usedVars tokens v Habc), Hrow in Hv.
      destruct v; simpl in *; by rewrite ?Hv.
    + destruct v; try done; set_solver.
Qed.

Lemma truthTable_complete_witness :
  exists row,
    row ∈ truthTable true [VAR vA; OP opOR; VAR vB]
    /\ (forall v, v ∈ usedVars [VAR vA; OP opOR; VAR vB] ->
        assignment row !! v
        = Some (default false (({["B" := true]} : gmap string bool) !! v)))
    /\ RESULT row
       = resultCell (safeEvaluate [VAR vA; OP opOR; VAR vB] {["B" := true]}).
Proof.
  apply (truthTable_complete [VAR vA; OP opOR; VAR vB] {["B" := true]}).
  vm_compute. discriminate.
Defined.

(** X13: the table of a well-formed expression shows its values.  Every
    row of the table of the rendering of an expression tree carries the
    value of the tree under the row's assignment, never the sentinel. *)
Theorem truthTable_render (ctx : Z) (e : Expr) (row : Row) :
  row ∈ truthTable true (render ctx e) ->
  RESULT row = inl (denote (assignment row) e).
Proof.
  intros [mask Hrow]%list_elem_of_lookup.
  apply lookup_lt_Some in Hrow as Hlt.
  rewrite truthTable_lookup in Hrow by done. simplify_eq. simpl.
  by destruct (render_evaluates ctx e
                 (assignmentOf (usedVars (render ctx e)) (Z.of_nat mask)))
    as [_ ->].
Qed.

Lemma truthTable_render_witness :
  let e := EOr (EVar vA) (ENot (EVar vB)) in
  let row := rowFor (render 1 e) ["A"; "B"] 1 in
  RESULT row = inl (denote (assignment row) e).
Proof.
  apply (truthTable_render 1 (EOr (EVar vA) (ENot (EVar vB)))).
  apply list_elem_of_lookup. exists 1. reflexivity.
Defined.


(** ** The environment *)

(** X14: whether an expression fails, and with which error, is decided
    by the token sequence alone: two environments give the same error or
    both give a value. *)
Theorem safeEvaluate_failure_structural (tokens : list Token)
    (env1 env2 : gmap string bool) :
  (forall e, safeEvaluate tokens env1 = inl e
             <-> safeEvaluate tokens env2 = inl e)
  /\ ((exists val, safeEvaluate tokens env1 = inr val)
      <-> (exists val, safeEvaluate tokens env2 = inr val)).
Proof.
  assert (forall enva envb,
            (exists val, safeEvaluate tokens enva = inr val) ->
            exists val, safeEvaluate tokens envb = inr val) as Hvalue.
  { intros enva envb [val Hval].
    destruct (safeEvaluate tokens envb) as [e|val'] eqn:Hb; [|by eexists].
    apply (safeEvaluate_fails_any_env _ _ enva) in Hb. congruence. }
  split; [|split; apply Hvalue].
  intros e. split; apply safeEvaluate_fails_any_env.
Qed.

Lemma operandValue_toggle_other env k w :
  varKey w <> k -> operandValue (toggleInput k env) w = operandValue env w.
Proof.
  intros Hne. unfold toggleInput.
  destruct w; simpl in *; try done; by rewrite lookup_insert_ne.
Qed.

(** X15: an input button flips the value of its variable and of no
    other; it leaves the outcome of every expression in which the
    variable does not occur as it was; pressed twice, it gives back every
    outcome, and gives back the environment itself when the variable was
    bound. *)
Theorem toggleInput_effect (env : gmap string bool) (v : VarName)
    (tokens : list Token) :
  v ∈ [vA; vB; vC] ->
  operandValue (toggleInput (varKey v) env) v = negb (operandValue env v)
  /\ (forall w, w <> v ->
      operandValue (toggleInput (varKey v) env) w = operandValue env w)
  /\ (VAR v ∉ tokens ->
      safeEvaluate tokens (toggleInput (varKey v) env)
      = safeEvaluate tokens env)
  /\ safeEvaluate tokens (toggleInput (varKey v) (toggleInput (varKey v) env))
     = safeEvaluate tokens env
  /\ (is_Some (env !! varKey v) ->
      toggleInput (varKey v) (toggleInput (varKey v) env) = env).
Proof.
  intros Hv.
  assert (operandValue (toggleInput (varKey v) env) v
          = negb (operandValue env v)) as Hflip.
  { unfold toggleInput. apply list_elem_of_In in Hv. simpl in Hv.
    destruct Hv as [<-|[<-|[<-|[]]]]; simpl; by rewrite lookup_insert_eq. }
  assert (forall env' w, w <> v ->
            operandValue (toggleInput (varKey v) env') w
            = operandValue env' w) as Hother.
  { intros env' w Hne. apply operandValue_toggle_other.
    intros Heq. by apply (inj varKey) in Heq. }
  split; [done|]. split; [apply Hother|]. split; [|split].
  - intros Hnot. apply safeEvaluate_agree. intros w Hw.
    apply Hother. by intros ->.
  - apply safeEvaluate_agree. intros w _.
    destruct (decide (w = v)) as [->|Hne].
    + unfold toggleInput at 1. unfold operandValue at 1.
      apply list_elem_of_In in Hv. simpl in Hv.
      destruct Hv as [<-|[<-|[<-|[]]]]; simpl;
        rewrite lookup_insert_eq; simpl;
        unfold toggleInput; rewrite lookup_insert_eq; simpl;
        by rewrite negb_involutive.
    + by rewrite !Hother.
  - intros [b Hb]. unfold toggleInput.
    rewrite lookup_insert_eq, insert_insert_eq, Hb. simpl.
    rewrite negb_involutive. by apply insert_id.
Qed.

Lemma toggleInput_effect_witness :
  let env := initialAssignment in
  let tokens := [VAR vA; OP opAND; VAR vB] in
  operandValue (toggleInput (varKey vC) env) vC = negb (operandValue env vC)
  /\ (forall w, w <> vC ->
      operandValue (toggleInput (varKey vC) env) w = operandValue env w)
  /\ (VAR vC ∉ tokens ->
      safeEvaluate tokens (toggleInput (varKey vC) env)
      = safeEvaluate tokens env)
  /\ safeEvaluate tokens
       (toggleInput (varKey vC) (toggleInput (varKey vC) env))
     = safeEvaluate tokens env
  /\ (is_Some (env !! varKey vC) ->
      toggleInput (varKey vC) (toggleInput (varKey vC) env) = env).
Proof.
  apply (toggleInput_effect initialAssignment vC [VAR vA; OP opAND; VAR vB]).
  compute_done.
Defined.

(** ** The variables of the table *)

Lemma freeVars_ext tokens tokens' :
  (forall v, VAR v ∈ tokens <-> VAR v ∈ tokens') ->
  freeVars tokens = freeVars tokens'.
Proof.
  intros Hsame. unfold freeVars. rewrite !filter_cons, !filter_nil.
  pose proof (Hsame vA). pose proof (Hsame vB). pose proof (Hsame vC).
  repeat case_decide; try done; tauto.
Qed.

(** X16: the columns of the table depend only on which variables occur.
    Two sequences in which the same variables occur (a reordering, a
    repetition, other operators or parentheses) have the same used
    variables and tables with as many rows. *)
Theorem usedVars_extensional (tokens tokens' : list Token) :
  (forall v, VAR v ∈ tokens <-> VAR v ∈ tokens') ->
  usedVars tokens = usedVars tokens'
  /\ length (truthTable true tokens) = length (truthTable true tokens').
Proof.
  intros Hsame%freeVars_ext.
  assert (usedVars tokens = usedVars tokens') as Hused
    by by rewrite !usedVars_freeVars, Hsame.
  split; [done|]. by rewrite !truthTable_length, Hused.
Qed.

Lemma usedVars_extensional_witness :
  usedVars [VAR vA; OP opAND; VAR vB]
  = usedVars [LPAREN; VAR vB; VAR vB; OP opOR; VAR vA]
  /\ length (truthTable true [VAR vA; OP opAND; VAR vB])
     = length (truthTable true [LPAREN; VAR vB; VAR vB; OP opOR; VAR vA]).
Proof.
  apply (usedVars_extensional [VAR vA; OP opAND; VAR vB]
           [LPAREN; VAR vB; VAR vB; OP opOR; VAR vA]).
  intros v. rewrite !elem_of_cons, !elem_of_nil. destruct v; intuition congruence.
Defined.


(** ** Editing the expression *)

Lemma filterIndexed_all {A} (keep : A -> nat -> bool) j (arr : list A) :
  (forall x k, j <= k -> keep x k = true) -> filterIndexed keep j arr = arr.
Proof.
  revert j. induction arr as [|x arr IH]; intros j Hkeep; simpl; [done|].
  rewrite Hkeep by lia. f_equal. apply IH. intros y k Hk. apply Hkeep. lia.
Qed.

Lemma filterIndexed_remove {A} (arr : list A) j i :
  filterIndexed (fun _ k => negb (Nat.eqb k (j + i))) j arr
  = take i arr ++ drop (S i) arr.
Proof.
  revert j i. induction arr as [|x arr IH]; intros j i; simpl.
  - by destruct i.
  - destruct i as [|i]; simpl.
    + rewrite Nat.add_0_r, Nat.eqb_refl. simpl. rewrite drop_0.
      apply filterIndexed_all. intros y k Hk.
      apply negb_true_iff, Nat.eqb_neq. lia.
    + replace (Nat.eqb j (j + S i)) with false
        by (symmetry; apply Nat.eqb_neq; lia).
      simpl. f_equal. rewrite <- (IH (S j) i).
      by replace (S j + i) with (j + S i) by lia.
Qed.

Lemma onRemove_delete i prev :
  onRemove i prev = take i prev ++ drop (S i) prev.
Proof. apply (filterIndexed_remove prev 0 i). Qed.

Lemma splice_insert {A} i (x : A) arr :
  snd (splice i 0 [x] arr)
  = take (i `min` length arr) arr ++ x :: drop (i `min` length arr) arr.
Proof. unfold splice. simpl. by rewrite Nat.add_0_r. Qed.

(** X17: removing a chip removes the token at its index and nothing
    else: the tokens before and after keep their order, an index past the
    end removes nothing, and an index in range shortens the expression
    by one. *)
Theorem onRemove_removes (i : nat) (prev : list Token) :
  onRemove i prev = take i prev ++ drop (S i) prev
  /\ (forall j, j < i -> onRemove i prev !! j = prev !! j)
  /\ (forall j, i <= j -> onRemove i prev !! j = prev !! S j)
  /\ (length prev <= i -> onRemove i prev = prev)
  /\ (i < length prev -> S (length (onRemove i prev)) = length prev).
Proof.
  rewrite onRemove_delete. repeat split.
  - intros j Hj. destruct (decide (i <= length prev)).
    + rewrite lookup_app_l by (rewrite length_take; lia).
      by rewrite lookup_take_lt.
    + rewrite take_ge, drop_ge, app_nil_r by lia. done.
  - intros j Hj. destruct (decide (i <= length prev)).
    + rewrite lookup_app_r by (rewrite length_take; lia).
      rewrite length_take, lookup_drop. f_equal. lia.
    + rewrite take_ge, drop_ge, app_nil_r by lia.
      rewrite !lookup_ge_None_2; [done|lia|lia].
  - intros Hi. by rewrite take_ge, drop_ge, app_nil_r by lia.
  - intros Hi. rewrite length_app, length_take, length_drop. lia.
Qed.

(** X18: a dropped token lands at the index of the drop, or at the end
    when that index lies past the end or when there is none; the other
    tokens keep their order, and removing the chip at that place gives
    the expression back. *)
Theorem handleDropAdd_inserts (insertAt : option nat) (t : Token)
    (prev : list Token) :
  let at_ := from_option (fun i => i `min` length prev) (length prev) insertAt in
  handleDropAdd insertAt t prev = take at_ prev ++ t :: drop at_ prev
  /\ handleDropAdd insertAt t prev !! at_ = Some t
  /\ length (handleDropAdd insertAt t prev) = S (length prev)
  /\ onRemove at_ (handleDropAdd insertAt t prev) = prev.
Proof.
  intros at_.
  assert (at_ <= length prev) as Hat by (unfold at_; destruct insertAt; simpl; lia).
  assert (handleDropAdd insertAt t prev = take at_ prev ++ t :: drop at_ prev)
    as ->.
  { unfold at_. destruct insertAt as [i|]; simpl.
    - apply splice_insert.
    - unfold addToken. by rewrite take_ge, drop_ge by lia. }
  repeat split.
  - rewrite list_lookup_middle; [done|]. rewrite length_take. lia.
  - rewrite length_app, length_take. simpl. rewrite length_drop. lia.
  - rewrite onRemove_delete.
    rewrite take_app_length' by (rewrite length_take; lia).
    rewrite (cons_middle t), app_assoc.
    rewrite drop_app_length'
      by (rewrite length_app, length_take; simpl; lia).
    apply take_drop.
Qed.


Lemma splice_remove_one {A} from (x : A) arr :
  arr !! from = Some x ->
  splice from 1 [] arr = ([x], take from arr ++ drop (S from) arr).
Proof.
  intros Hx. apply lookup_lt_Some in Hx as Hlt. unfold splice.
  rewrite Nat.min_l by lia. rewrite (drop_S _ _ _ Hx). simpl.
  rewrite take_0. by rewrite Nat.add_1_r.
Qed.

Lemma splice_remove_none {A} from (arr : list A) :
  length arr <= from -> splice from 1 [] arr = ([], arr).
Proof.
  intros Hge. unfold splice. rewrite Nat.min_r by lia.
  rewrite !drop_ge by lia. simpl. by rewrite take_ge, app_nil_r by lia.
Qed.

Lemma fmap_insert_at {A B} (f : A -> B) a x (l : list A) :
  f <$> (take a l ++ x :: drop a l)
  = take a (f <$> l) ++ f x :: drop a (f <$> l).
Proof. by rewrite fmap_app, fmap_cons, fmap_take, fmap_drop. Qed.

(** X19: dragging the chip at index [from] to the gap [to] takes its
    token out and puts it back at index [to] of what remains (at the end
    when [to] lies past it): the expression keeps its tokens, in another
    order, and is unchanged when [to = from]; dropped on the gap right
    after itself the chip does not stay but trades places with its right
    neighbour.  With no chip at [from], nothing is taken out and an
    [undefined] entry is inserted. *)
Theorem handleReorderDrop_moves (from to : nat) (prev : list Token) :
  let rest := onRemove from prev in
  let at_ := to `min` length rest in
  (forall x, prev !! from = Some x ->
     handleReorderDrop from to prev
     = Some <$> (take at_ rest ++ x :: drop at_ rest)
     /\ take at_ rest ++ x :: drop at_ rest ≡ₚ prev
     /\ (to = from -> handleReorderDrop from to prev = Some <$> prev)
     /\ (forall y, to = S from -> prev !! S from = Some y ->
         handleReorderDrop from to prev
         = Some <$> (take from prev ++ y :: x :: drop (S (S from)) prev)))
  /\ (length prev <= from ->
      handleReorderDrop from to prev
      = take (to `min` length prev) (Some <$> prev)
        ++ None :: drop (to `min` length prev) (Some <$> prev)).
Proof.
  intros rest at_. split.
  - intros x Hx. apply lookup_lt_Some in Hx as Hlt.
    assert (handleReorderDrop from to prev
            = Some <$> (take at_ rest ++ x :: drop at_ rest)) as Hmove.
    { unfold handleReorderDrop.
      rewrite (splice_remove_one from (Some x))
        by (by rewrite list_lookup_fmap, Hx).
      cbv beta iota zeta. cbn [head from_option id]. rewrite splice_insert.
      unfold at_, rest. rewrite onRemove_delete.
      rewrite <- fmap_take, <- fmap_drop, <- fmap_app, length_fmap.
      by rewrite fmap_insert_at. }
    assert (rest = take from prev ++ drop (S from) prev) as Hrest
      by apply onRemove_delete.
    assert (length rest = length prev - 1) as Hlen
      by (rewrite Hrest, length_app, length_take, length_drop; lia).
    split; [done|]. split; [|split].
    + rewrite <- Permutation_middle, take_drop, Hrest.
      rewrite <- (take_drop_middle prev from x Hx) at 3.
      by rewrite <- Permutation_middle.
    + intros ->. rewrite Hmove. f_equal.
      assert (at_ = from) as -> by (unfold at_; lia).
      rewrite Hrest.
      rewrite take_app_length', drop_app_length'
        by (rewrite length_take; lia).
      by apply take_drop_middle.
    + intros y -> Hy. rewrite Hmove. f_equal.
      apply lookup_lt_Some in Hy as Hlty.
      assert (at_ = S from) as -> by (unfold at_; lia).
      rewrite Hrest, (drop_S _ _ _ Hy).
      rewrite (cons_middle y), app_assoc.
      rewrite take_app_length', drop_app_length'
        by (rewrite length_app, length_take; simpl; lia).
      by rewrite <- app_assoc.
  - intros Hge. unfold handleReorderDrop.
    rewrite splice_remove_none by (by rewrite length_fmap).
    cbv beta iota zeta. cbn [head from_option id].
    by rewrite splice_insert, length_fmap.
Qed.

(** ** What the page shows *)

Lemma message_inj e1 e2 : message e1 = message e2 -> e1 = e2.
Proof. destruct e1, e2; simpl; intros Heq; try done; discriminate Heq. Qed.

(** X20: the result card shows the outcome of the pipeline without loss:
    it holds the value when the expression evaluates; otherwise its text is
    the message of the error, distinct errors have distinct messages,
    and the text is never "Unknown operator". *)
Theorem result_reflects (tokens : list Token) (env : gmap string bool) :
  (forall val, result tokens env = Ok val
               <-> safeEvaluate tokens env = inr val)
  /\ (forall e, result tokens env = Failed (message e)
                <-> safeEvaluate tokens env = inl e)
  /\ (forall e1 e2, message e1 = message e2 -> e1 = e2)
  /\ result tokens env <> Failed "Unknown operator".
Proof.
  assert (forall e, result tokens env = Failed (message e)
                    <-> safeEvaluate tokens env = inl e) as Hfail.
  { intros e. unfold result.
    destruct (safeEvaluate tokens env) as [e'|val]; [|done].
    split; [intros [= Heq]; by apply message_inj in Heq as ->|by intros [= ->]]. }
  split; [|split; [done|split; [apply message_inj|]]].
  - intros val. unfold result.
    destruct (safeEvaluate tokens env) as [e'|val']; [done|].
    split; by intros [= ->].
  - intros Hunknown. apply (Hfail UnknownOperator) in Hunknown.
    unfold safeEvaluate in Hunknown.
    destruct (validityChecks tokens) as [e|[]] eqn:Hvalid; simpl in Hunknown.
    { simplify_eq. by apply validityChecks_error in Hvalid. }
    destruct (toRPN tokens) as [e|rpn] eqn:Hrpn; simpl in Hunknown.
    { simplify_eq. by apply toRPN_only_mismatched in Hrpn. }
    apply toRPN_emits in Hrpn as (_ & _ & Hitems).
    by apply evalRPN_error in Hunknown.
Qed.

(** X21: the chips are unambiguous: two tokens with the same label are
    the same token. *)
Theorem label_inj (t1 t2 : Token) : label t1 = label t2 -> t1 = t2.
Proof.
  destruct t1 as [[]|[]| |], t2 as [[]|[]| |]; simpl; intros Heq;
    try done; discriminate Heq.
Qed.

Lemma label_inj_witness : OP opAND = OP opAND.
Proof. apply (label_inj (OP opAND) (OP opAND)). reflexivity. Defined.


(** ** A [!] written after its operand *)

(** X22: the validity checks look only at what follows a [!], so a [!]
    placed after a variable or a parenthesised expression is accepted,
    and it negates that operand: the sequence evaluates to the negation
    of the operand's value. *)
Theorem safeEvaluate_trailing_not (e : Expr) (env : gmap string bool) :
  validityChecks (render 4 e ++ [OP opNOT]) = inr tt
  /\ toRPN (render 4 e ++ [OP opNOT]) = inr (postfix e ++ [Tok (OP opNOT)])
  /\ safeEvaluate (render 4 e ++ [OP opNOT]) env = inr (negb (denote env e)).
Proof.
  assert (validityChecks (render 4 e ++ [OP opNOT]) = inr tt) as Hvalid.
  { rewrite validityChecks_checksIn
      by (intros Hnil; by apply app_eq_nil in Hnil as [_ ?]).
    rewrite checksIn_app, (render_validIn e 4) by done.
    cbn [bind checksIn head from_option].
    by destruct (last (render 4 e)) as [[v|o| |]|]. }
  assert (toRPN (render 4 e ++ [OP opNOT])
          = inr (postfix e ++ [Tok (OP opNOT)])) as Hrpn.
  { unfold toRPN. rewrite rpnScan_app.
    destruct (render_scansTo e 4 [] [])
      as (pending & output & Hrun & Hout & Hall); [done|].
    rewrite Hrun. cbn [bind].
    destruct pending as [|o pending].
    - simpl in *. rewrite app_nil_r in Hout. by rewrite Hout.
    - apply Forall_cons in Hall as [Ho _]. destruct o; simpl in Ho; lia. }
  split; [done|]. split; [done|].
  unfold safeEvaluate. rewrite Hvalid, Hrpn. cbn [bind].
  unfold evalRPN. by rewrite evalLoop_app, evalLoop_postfix.
Qed.

Example trailing_not_tokens :
  render 4 (EOr (EVar vA) (EVar vB)) ++ [OP opNOT]
  = [LPAREN; VAR vA; OP opOR; VAR vB; RPAREN; OP opNOT].
Proof. reflexivity. Qed.
